(** * FileBeam: signaling relay and chunked transfer engine

    A shallow embedding of the two programs of the repository:

    - the signaling server (express + socket.io): the [rooms] map and the
      [join-room], [offer], [answer], [ice-candidate] and [disconnect]
      handlers (module [Relay]);
    - the [useWebRTC] hook: [handleFileSelect], [sendFile],
      [handleDataChannelMessage], [saveReceivedFile], [resetConnection],
      and the ETA line of the page component (module [Transfer]).

    Handlers are state-passing functions: they take the mutable state they
    close over and return the new state with the list of effects they
    perform, in program order. The numbers of the hook are binary64
    values (module [JS]). *)

From stdpp Require Import gmap strings list fin_maps.
From Stdlib Require Import QArith Qround Qreduction Qpower Lqa SpecFloat.
From Equations Require Import Equations.
From Equations.Prop Require Import Logic.

Close Scope Q_scope.
Local Open Scope string_scope.
Local Open Scope list_scope.

(* ===================================================================== *)
(** * The signaling server *)
(* ===================================================================== *)

Module Relay.

(** [socket.id]: a string chosen by socket.io for each connection. *)
Definition ConnId := string.

(** An SDP blob or an ICE candidate descriptor; the server never looks
    inside. *)
Definition Payload := string.

(** [{ sender: null, receiver: null }]: a slot holds [null] or a socket id. *)
Record Room := mkRoom { sender : option ConnId; receiver : option ConnId }.

Global Instance Room_eq_dec : EqDecision Room.
Proof. solve_decision. Defined.

(** The messages the server emits, and the connection each is addressed to
    ([io.to(id).emit(...)]). *)
Inductive ServerMsg :=
| ReceiverJoined
| PeerDisconnected
| OfferTo (offer : Payload)
| AnswerTo (answer : Payload)
| IceCandidateTo (candidate : Payload).

Global Instance ServerMsg_eq_dec : EqDecision ServerMsg.
Proof. solve_decision. Defined.

Record Emit := mkEmit { target : ConnId; msg : ServerMsg }.

Global Instance Emit_eq_dec : EqDecision Emit.
Proof. solve_decision. Defined.

(** The events a connection raises on the server. *)
Inductive ClientMsg :=
| JoinRoom (roomId : string) (isSender : bool)
| Offer (roomId : string) (offer : Payload)
| Answer (roomId : string) (answer : Payload)
| IceCandidate (roomId : string) (candidate : Payload)
| Disconnect.

(** JavaScript truthiness of a slot: [null] and the empty string are falsy. *)
Definition truthy (slot : option ConnId) : bool :=
  match slot with
  | Some id => negb (String.eqb id "")
  | None => false
  end.

(** [if (targetId) io.to(targetId).emit(m)] *)
Definition emitIfTruthy (slot : option ConnId) (m : ServerMsg) : list Emit :=
  match slot with
  | Some id => if truthy slot then [mkEmit id m] else []
  | None => []
  end.

(** [socket.on("join-room", ({ roomId, isSender }) => ...)].
    [socket.join(roomId)] only changes socket.io's own room membership,
    which no handler reads. Emissions go to the socket.io room named by a
    socket id, which holds that socket alone as long as no share code is
    also a socket id: they are modelled as addressed to the connection. *)
Definition joinRoom (id : ConnId) (roomId : string) (isSender : bool)
    (rooms : gmap string Room) : gmap string Room * list Emit :=
  let rooms1 :=
    if bool_decide (is_Some (rooms !! roomId)) then rooms
    else <[roomId := mkRoom None None]> rooms in
  match rooms1 !! roomId with
  | Some room =>
      if isSender then
        (<[roomId := mkRoom (Some id) (receiver room)]> rooms1, [])
      else
        let room' := mkRoom (sender room) (Some id) in
        (<[roomId := room']> rooms1, emitIfTruthy (sender room') ReceiverJoined)
  | None => (rooms1, [])   (* not reached: [roomId] was just stored *)
  end.

(** [socket.on("offer", ...)]: forwarded to the room's receiver. *)
Definition onOffer (roomId : string) (offer : Payload)
    (rooms : gmap string Room) : list Emit :=
  match rooms !! roomId with
  | Some room => emitIfTruthy (receiver room) (OfferTo offer)
  | None => []
  end.

(** [socket.on("answer", ...)]: forwarded to the room's sender. *)
Definition onAnswer (roomId : string) (answer : Payload)
    (rooms : gmap string Room) : list Emit :=
  match rooms !! roomId with
  | Some room => emitIfTruthy (sender room) (AnswerTo answer)
  | None => []
  end.

(** [room.sender === socket.id ? room.receiver : room.sender] *)
Definition otherPeer (id : ConnId) (room : Room) : option ConnId :=
  if bool_decide (sender room = Some id) then receiver room else sender room.

(** [socket.on("ice-candidate", ...)] *)
Definition onIceCandidate (id : ConnId) (roomId : string) (candidate : Payload)
    (rooms : gmap string Room) : list Emit :=
  match rooms !! roomId with
  | Some room => emitIfTruthy (otherPeer id room) (IceCandidateTo candidate)
  | None => []
  end.

(** [if (room.sender === socket.id) room.sender = null] followed by
    [if (room.receiver === socket.id) room.receiver = null]. *)
Definition clearSlots (id : ConnId) (room : Room) : Room :=
  let room1 :=
    if bool_decide (sender room = Some id)
    then mkRoom None (receiver room) else room in
  if bool_decide (receiver room1 = Some id)
  then mkRoom (sender room1) None else room1.

(** The body of the [for (const [roomId, room] of rooms.entries())] loop of
    the disconnect handler, on the registry and the emissions so far. *)
Definition disconnectRoom (id : ConnId)
    (acc : gmap string Room * list Emit) (entry : string * Room)
    : gmap string Room * list Emit :=
  let '(rooms, out) := acc in
  let '(roomId, room) := entry in
  if bool_decide (sender room = Some id) || bool_decide (receiver room = Some id)
  then
    let out' := out ++ emitIfTruthy (otherPeer id room) PeerDisconnected in
    let room' := clearSlots id room in
    if negb (truthy (sender room')) && negb (truthy (receiver room'))
    then (delete roomId rooms, out')
    else (<[roomId := room']> rooms, out')
  else acc.

(** The loop [for (const [roomId, room] of rooms.entries())] of the
    disconnect handler, visiting the entries in the order [visited]. Each
    entry is visited once and the body only deletes or overwrites the
    entry it is visiting, so iterating over the live map is iterating over
    its entries at the start. A JavaScript [Map] iterates in insertion
    order, which a finite map does not record: the order is a parameter of
    the loop, and what is proved of the loop is proved for every order. *)
Definition disconnectLoop (id : ConnId) (visited : list (string * Room))
    (rooms : gmap string Room) : gmap string Room * list Emit :=
  foldl (disconnectRoom id) (rooms, []) visited.

(** [socket.on("disconnect", ...)], with the rooms visited in key order.
    The registry that results is the same for every order, and so are the
    notifications up to their order ([RelayFacts.disconnect_any_order]). *)
Definition onDisconnect (id : ConnId) (rooms : gmap string Room)
    : gmap string Room * list Emit :=
  disconnectLoop id (map_to_list rooms) rooms.

(** One event of connection [id]. *)
Definition handle (id : ConnId) (m : ClientMsg) (rooms : gmap string Room)
    : gmap string Room * list Emit :=
  match m with
  | JoinRoom roomId isSender => joinRoom id roomId isSender rooms
  | Offer roomId offer => (rooms, onOffer roomId offer rooms)
  | Answer roomId answer => (rooms, onAnswer roomId answer rooms)
  | IceCandidate roomId candidate =>
      (rooms, onIceCandidate id roomId candidate rooms)
  | Disconnect => onDisconnect id rooms
  end.

(** The server's event loop: events are handled one at a time, in arrival
    order; the registry is all the state that survives an event. *)
Fixpoint run (events : list (ConnId * ClientMsg)) (rooms : gmap string Room)
    : gmap string Room * list Emit :=
  match events with
  | [] => (rooms, [])
  | (id, m) :: rest =>
      let '(rooms1, out1) := handle id m rooms in
      let '(rooms2, out2) := run rest rooms1 in
      (rooms2, out1 ++ out2)
  end.

(** ** Notions used to state the properties of the server *)

(** [id] holds a slot of the room. *)
Definition occupies (id : ConnId) (room : Room) : Prop :=
  sender room = Some id ∨ receiver room = Some id.

Global Instance occupies_dec id room : Decision (occupies id room).
Proof. unfold occupies. apply _. Defined.

(** The occupants of a room. *)
Definition occupants (room : Room) : list ConnId :=
  omap (λ slot : option ConnId, slot) [sender room; receiver room].

(** The connections still in the room once [id], which held a slot of it,
    has left. *)
Definition remaining (id : ConnId) (room : Room) : list ConnId :=
  if decide (occupies id room)
  then filter (λ c, c ≠ id) (occupants room)
  else [].

(** A slot once [id] is taken out of it. *)
Definition vacate (id : ConnId) (slot : option ConnId) : option ConnId :=
  if decide (slot = Some id) then None else slot.

(** What leaving makes of a room, in the words of the registry contract:
    [id] is removed from the slots it occupies, and the room is deleted
    ([None]) when that leaves both slots empty; a room [id] does not
    occupy is not touched. *)
Definition leaveRoom (id : ConnId) (room : Room) : option Room :=
  if decide (occupies id room) then
    let room' := mkRoom (vacate id (sender room)) (vacate id (receiver room)) in
    if decide (sender room' = None ∧ receiver room' = None)
    then None else Some room'
  else Some room.

(** [peerOf(code, id)] in the words of the registry contract: the
    occupant of the slot opposite to the one [id] holds in the room of the
    code. There is none when the code has no room, when [id] holds no slot
    of the room, and when the opposite slot is empty. *)
Definition peerOf (roomId : string) (id : ConnId) (rooms : gmap string Room)
    : option ConnId :=
  match rooms !! roomId with
  | Some room =>
      if decide (sender room = Some id) then receiver room
      else if decide (receiver room = Some id) then sender room
      else None
  | None => None
  end.

(** The messages the server relays to a peer. *)
Definition relayed (m : ClientMsg) : bool :=
  match m with
  | Offer _ _ | Answer _ _ | IceCandidate _ _ => true
  | JoinRoom _ _ | Disconnect => false
  end.

(** Socket ids are never empty strings; a registry built from joins of
    such ids holds none. *)
Definition slots_wf (room : Room) : Prop :=
  sender room ≠ Some "" ∧ receiver room ≠ Some "".

Definition registry_wf (rooms : gmap string Room) : Prop :=
  map_Forall (λ _ room, slots_wf room) rooms.

(** The emissions that reach a connection once [closed] has disconnected:
    socket.io runs the disconnect handler after the closing socket has
    left all its rooms, its own id included, so an emission addressed to
    [closed] reaches nobody. *)
Definition delivered (closed : ConnId) (out : list Emit) : list Emit :=
  filter (λ e, target e ≠ closed) out.

(** The room a message names; a disconnection names none. *)
Definition roomOf (m : ClientMsg) : option string :=
  match m with
  | JoinRoom roomId _ | Offer roomId _ | Answer roomId _
  | IceCandidate roomId _ => Some roomId
  | Disconnect => None
  end.

(** No connection holds a slot of the registry under the id [id]. *)
Definition absent (id : ConnId) (rooms : gmap string Room) : Prop :=
  ∀ roomId room, rooms !! roomId = Some room → ¬ occupies id room.

(** Every room of the registry has an occupant, and no slot holds the
    empty string. *)
Definition registry_inhabited (rooms : gmap string Room) : Prop :=
  map_Forall (λ _ room, slots_wf room ∧ occupants room ≠ []) rooms.

End Relay.

(* ===================================================================== *)
(** * JavaScript numbers *)
(* ===================================================================== *)

(** The numbers of JavaScript are IEEE 754 binary64 values. They are
    modelled by the rationals they stand for, kept in lowest terms, with
    the values a division by zero produces. Byte counts and clock readings
    are integers below [2 ^ 53], which binary64 holds exactly ([ofZ]);
    every quotient and product is rounded to the nearest value with 53
    significant bits, ties to even ([round64]), as the hardware does. The
    exponent range of the format (overflow beyond [2 ^ 1024], underflow
    below [2 ^ -1074]) and the sign of zero are not modelled: the
    quantities of the hook are far from the former, and nothing it
    computes tells the two zeros apart. *)
Module JS.

Inductive num :=
| Num (q : Q)
| Infinity
| NegInfinity
| NaN.

Definition ofZ (z : Z) : num := Num (inject_Z z).

Definition isZero (q : Q) : bool := Qeq_bool q 0.
Definition isNeg (q : Q) : bool := negb (Qle_bool 0 q).

(** [2 ^ e] *)
Definition pow2 (e : Z) : Q := (2 ^ e)%Q.

(** For [q > 0], the exponent [e] with [2 ^ e <= q < 2 ^ (e + 1)]: the
    difference of the bit lengths of numerator and denominator, or one
    less. *)
Definition floorLog2 (q : Q) : Z :=
  let k := (Z.log2 (Qnum q) - Z.log2 (Zpos (Qden q)))%Z in
  if Qle_bool (pow2 k) q then k else (k - 1)%Z.

(** The integer nearest to [s]; the even one of the two when [s] lies
    half-way between them. *)
Definition nearestEven (s : Q) : Z :=
  let f := Qfloor s in
  match (s - inject_Z f ?= 1 # 2)%Q with
  | Lt => f
  | Gt => (f + 1)%Z
  | Eq => if Z.even f then f else (f + 1)%Z
  end.

(** The binary64 value nearest to [q > 0]: [q] is scaled by a power of two
    so that its leading bit is bit 52, rounded to an integer significand
    of 53 bits, and scaled back. *)
Definition roundPositive (q : Q) : Q :=
  let e := (floorLog2 q - 52)%Z in
  (inject_Z (nearestEven (q / pow2 e)) * pow2 e)%Q.

(** Round to nearest, ties to even; the rounding is symmetric around
    zero. *)
Definition round64 (q : Q) : Q :=
  let q := Qred q in
  match (q ?= 0)%Q with
  | Eq => 0%Q
  | Gt => Qred (roundPositive q)
  | Lt => Qred (- roundPositive (- q))
  end.

(** [a / b] *)
Definition div (a b : num) : num :=
  match a, b with
  | NaN, _ | _, NaN => NaN
  | Num x, Num y =>
      if isZero y then
        (if isZero x then NaN else if isNeg x then NegInfinity else Infinity)
      else Num (round64 (x / y))
  | Num _, Infinity | Num _, NegInfinity => Num 0
  | Infinity, Num y => if isNeg y then NegInfinity else Infinity
  | NegInfinity, Num y => if isNeg y then Infinity else NegInfinity
  | _, _ => NaN
  end.

(** [a * b] *)
Definition mul (a b : num) : num :=
  match a, b with
  | NaN, _ | _, NaN => NaN
  | Num x, Num y => Num (round64 (x * y))
  | Num x, Infinity | Infinity, Num x =>
      if isZero x then NaN else if isNeg x then NegInfinity else Infinity
  | Num x, NegInfinity | NegInfinity, Num x =>
      if isZero x then NaN else if isNeg x then Infinity else NegInfinity
  | Infinity, Infinity | NegInfinity, NegInfinity => Infinity
  | _, _ => NegInfinity
  end.

(** [a > b]: false as soon as one side is [NaN]. *)
Definition gtb (a b : num) : bool :=
  match a, b with
  | Num x, Num y => negb (Qle_bool x y)
  | Infinity, Num _ | Infinity, NegInfinity | Num _, NegInfinity => true
  | _, _ => false
  end.

(** [Math.ceil(a)] *)
Definition ceil (a : num) : num :=
  match a with
  | Num x => ofZ (Qceiling x)
  | _ => a
  end.

(** The number a value of the Standard Library's model of IEEE 754
    ([SpecFloat]) stands for, and the binary64 value of an integer in that
    model: [round64] is checked against its division and multiplication
    below. *)
Definition ofSpecFloat (x : spec_float) : num :=
  match x with
  | S754_zero _ => Num 0
  | S754_infinity false => Infinity
  | S754_infinity true => NegInfinity
  | S754_nan => NaN
  | S754_finite s m e =>
      Num (Qred ((if s then - inject_Z (Zpos m) else inject_Z (Zpos m))
                 * pow2 e))
  end.

Definition binary64 (z : Z) : spec_float := binary_normalize 53 1024 z 0 false.

(** [a <= b] as a proposition; nothing is comparable with [NaN]. *)
Definition le (a b : num) : Prop :=
  match a, b with
  | Num x, Num y => (x <= y)%Q
  | NegInfinity, (Num _ | Infinity | NegInfinity) => True
  | (Num _ | Infinity), Infinity => True
  | _, _ => False
  end.

End JS.

(* ===================================================================== *)
(** * The useWebRTC hook *)
(* ===================================================================== *)

Module Transfer.

Import JS.

(** [const CHUNK_SIZE = 1024 * 1024] *)
Definition CHUNK_SIZE : N := (1024 * 1024)%N.

(** The bound of [handleFileSelect]: [1024 * 1024 * 1024]. *)
Definition MAX_FILE_SIZE : N := (1024 * 1024 * 1024)%N.

(** A [File] picked by the user: a handle with a name, a size and a MIME
    type, whose bytes are read on demand through [slice]. [file_byte f i]
    is the byte at offset [i], for [i] below [file_size f]. *)
Record File := mkFile {
  file_name : string;
  file_size : N;
  file_type : string;
  file_byte : N → Byte.byte
}.

(** [start; start + 1; ...], [len] offsets. *)
Fixpoint offsets (start : N) (len : nat) : list N :=
  match len with
  | O => []
  | S len' => start :: offsets (N.succ start) len'
  end.

(** The bytes [readAsArrayBuffer(file.slice(start, end))] yields:
    [Blob.slice] clamps both bounds to the size of the blob and returns an
    empty blob when they cross. *)
Definition slice (file : File) (start end_ : N) : list Byte.byte :=
  let relativeStart := N.min start (file_size file) in
  let relativeEnd := N.min end_ (file_size file) in
  let span := (relativeEnd - relativeStart)%N in
  file_byte file <$> offsets relativeStart (N.to_nat span).

(** The whole content of the file, first byte first. *)
Definition file_bytes (file : File) : list Byte.byte :=
  file_byte file <$> offsets 0 (N.to_nat (file_size file)).

(** The file with a given content. *)
Definition fileOf (name type : string) (content : list Byte.byte) : File :=
  mkFile name (N.of_nat (length content)) type
         (λ i, nth (N.to_nat i) content Byte.x00).

(** What travels on the data channel: a string, which [JSON.parse] turns
    into a [file-info] object, a [file-complete] object or some other
    value, or on which it throws; or an [ArrayBuffer]. *)
Inductive Frame :=
| FileInfo (name : string) (size : Z) (fileType : string)
| FileComplete
| OtherJson
| Malformed
| Chunk (data : list Byte.byte).

Inductive ReadyState := Connecting | Open | Closing | Closed.

(** Everything a handler of the hook does besides writing its refs: the
    React state setters, toasts, the data channel, the signaling socket,
    the download link and the console. *)
Inductive Effect :=
| SetSelectedFile (file : option File)
| SetShareCode (code : string)
| SetProgress (p : num)
| SetEstimatedTime (t : num)
| SetStatus (s : string)
| SetIsConnected (b : bool)
| Toast (title description : string)
| Send (frame : Frame)
| SocketEmit (m : Relay.ClientMsg)
| Download (name type : string) (payload : list Byte.byte)
| ConsoleError (what : string)
| CloseDataChannel
| ClosePeerConnection.

(** The React state of the hook. *)
Record UI := mkUI {
  selectedFile : option File;
  shareCode : string;
  progress : num;
  estimatedTime : num;
  status : string;
  isConnected : bool
}.

(** The initial values given to [useState]. *)
Definition initialUI : UI := mkUI None "" (ofZ 0) (ofZ 0) "" false.

(** The state after one effect: a setter replaces its field. *)
Definition render (ui : UI) (e : Effect) : UI :=
  match e with
  | SetSelectedFile f =>
      mkUI f (shareCode ui) (progress ui) (estimatedTime ui) (status ui) (isConnected ui)
  | SetShareCode c =>
      mkUI (selectedFile ui) c (progress ui) (estimatedTime ui) (status ui) (isConnected ui)
  | SetProgress p =>
      mkUI (selectedFile ui) (shareCode ui) p (estimatedTime ui) (status ui) (isConnected ui)
  | SetEstimatedTime t =>
      mkUI (selectedFile ui) (shareCode ui) (progress ui) t (status ui) (isConnected ui)
  | SetStatus s =>
      mkUI (selectedFile ui) (shareCode ui) (progress ui) (estimatedTime ui) s (isConnected ui)
  | SetIsConnected b =>
      mkUI (selectedFile ui) (shareCode ui) (progress ui) (estimatedTime ui) (status ui) b
  | _ => ui
  end.

Definition renders (ui : UI) (effects : list Effect) : UI :=
  foldl render ui effects.

(** The refs of the hook. [peerConnectionRef] only records whether a
    connection object is held, [dataChannelRef] the channel's
    [readyState]. *)
Record Refs := mkRefs {
  peerConnectionRef : bool;
  dataChannelRef : option ReadyState;
  fileChunksRef : list (list Byte.byte);
  receivedSizeRef : Z;
  totalSizeRef : Z;
  fileNameRef : string;
  fileTypeRef : string;
  startTimeRef : Z
}.

(** The initial values given to [useRef]. *)
Definition initialRefs : Refs := mkRefs false None [] 0 0 "" "" 0.

(** [(moved / total) * 100] *)
Definition percent (moved total : Z) : num :=
  mul (div (ofZ moved) (ofZ total)) (ofZ 100).

(** The block under "Calculate estimated time remaining", which
    [handleDataChannelMessage] and [reader.onload] both contain, with
    [moved] the bytes received or sent so far and [now] the reading of
    [Date.now()]. *)
Definition estimate (startTime now moved total : Z) : list Effect :=
  if (0 <? startTime)%Z then
    let elapsedTime := div (ofZ (now - startTime)) (ofZ 1000) in
    let bytesPerSecond := div (ofZ moved) elapsedTime in
    let remainingBytes := ofZ (total - moved) in
    let remainingTime :=
      if gtb bytesPerSecond (ofZ 0)
      then ceil (div remainingBytes bytesPerSecond)
      else ofZ 0 in
    [SetEstimatedTime remainingTime]
  else [].

(** The ETA line of the page:
    [estimatedTime > 0 ? `${estimatedTime} seconds remaining` : "Calculating..."] *)
Inductive EtaText := SecondsRemaining (seconds : num) | Calculating.

Definition etaText (estimatedTime : num) : EtaText :=
  if gtb estimatedTime (ofZ 0) then SecondsRemaining estimatedTime
  else Calculating.

(** [handleFileSelect], on [e.target.files]. *)
Definition handleFileSelect (files : list File) (r : Refs)
    : Refs * list Effect :=
  match files with
  | file :: _ =>
      if (MAX_FILE_SIZE <? file_size file)%N then
        (r, [Toast "File too large" "Maximum file size is 1GB"])
      else
        (mkRefs (peerConnectionRef r) (dataChannelRef r) [] 0 0
                (fileNameRef r) (fileTypeRef r) (startTimeRef r),
         [SetSelectedFile (Some file); SetShareCode ""; SetProgress (ofZ 0);
          SetEstimatedTime (ofZ 0); SetStatus ""; SetIsConnected false])
  | [] => (r, [])
  end.

(** [saveReceivedFile]: [new Blob(fileChunksRef.current, ...)] is the
    concatenation of the chunks in array order; clicking the link hands it
    to the user under [fileNameRef.current]. *)
Definition saveReceivedFile (r : Refs) : list Effect :=
  [Download (fileNameRef r) (fileTypeRef r) (concat (fileChunksRef r));
   SetStatus "File received successfully!";
   Toast "Transfer Complete" "File has been received successfully"].

(** [handleDataChannelMessage], with [now] the reading of [Date.now()]
    during the call. *)
Definition handleDataChannelMessage (now : Z) (data : Frame) (r : Refs)
    : Refs * list Effect :=
  match data with
  | FileInfo name size fileType =>
      (mkRefs (peerConnectionRef r) (dataChannelRef r) [] 0 size
              name fileType now,
       [SetStatus ("Receiving: " ++ name)%string])
  | FileComplete => (r, saveReceivedFile r)
  | OtherJson => (r, [])
  | Malformed => (r, [ConsoleError "Error parsing metadata:"])
  | Chunk data =>
      let received := (receivedSizeRef r + Z.of_nat (length data))%Z in
      (mkRefs (peerConnectionRef r) (dataChannelRef r)
              (fileChunksRef r ++ [data]) received (totalSizeRef r)
              (fileNameRef r) (fileTypeRef r) (startTimeRef r),
       SetProgress (percent received (totalSizeRef r))
         :: estimate (startTimeRef r) now received (totalSizeRef r))
  end.

(** [resetConnection] *)
Definition resetConnection (r : Refs) : Refs * list Effect :=
  (mkRefs false None [] 0 0 "" "" 0,
   match dataChannelRef r with Some _ => [CloseDataChannel] | None => [] end
   ++ (if peerConnectionRef r then [ClosePeerConnection] else [])
   ++ [SetSelectedFile None; SetShareCode ""; SetProgress (ofZ 0);
       SetEstimatedTime (ofZ 0); SetStatus ""; SetIsConnected false]).

(** The offset after the slice read at [offset] has been sent:
    [offset += e.target.result.byteLength]. *)
Definition nextOffset (file : File) (offset : N) : N :=
  (offset + N.of_nat (length (slice file offset (offset + CHUNK_SIZE))))%N.

(** The body of [reader.onload] up to the test [offset < file.size], for
    the slice read at [offset]: send it, then report progress and ETA with
    the advanced offset. The result of a read is an [ArrayBuffer] object,
    which is truthy even when empty, and the channel ref is only cleared by
    [resetConnection]: the early [return] is not taken during a transfer. *)
Definition onload (file : File) (startTime now : Z) (offset : N)
    : list Effect :=
  let result := slice file offset (offset + CHUNK_SIZE) in
  let offset' := nextOffset file offset in
  Send (Chunk result)
    :: SetProgress (percent (Z.of_N offset') (Z.of_N (file_size file)))
    :: estimate startTime now (Z.of_N offset') (Z.of_N (file_size file)).

(** [readSlice(offset)] and the [reader.onload] it triggers, which calls
    [readSlice] again until the offset reaches the size of the file.
    [clock k] is the reading of [Date.now()] in the [k]-th call of
    [reader.onload]. *)
Equations readSlice (clock : nat → Z) (file : File) (startTime : Z)
    (k : nat) (offset : N) : list Effect
    by wf (N.to_nat (file_size file - offset)) lt :=
  readSlice clock file startTime k offset
    with inspect (nextOffset file offset <? file_size file)%N := {
    | exist _ true continue =>
        onload file startTime (clock k) offset
        ++ readSlice clock file startTime (S k) (nextOffset file offset);
    | exist _ false _ =>
        onload file startTime (clock k) offset
        ++ [Send FileComplete;
            SetStatus "File sent successfully!";
            Toast "Transfer Complete" "File has been sent successfully"] }.
Next Obligation.
  revert continue. unfold nextOffset, slice. rewrite length_fmap.
  assert (Hlen : ∀ s n, length (offsets s n) = n).
  { intros s n. revert s. induction n as [|n IH]; intros s; simpl; [done|].
    by rewrite IH. }
  rewrite Hlen. intros H%N.ltb_lt. unfold CHUNK_SIZE in *. lia.
Qed.

(** [sendFile(file)], started at time [t0]. *)
Definition sendFile (t0 : Z) (clock : nat → Z) (file : File) (r : Refs)
    : Refs * list Effect :=
  match dataChannelRef r with
  | Some Open =>
      (mkRefs (peerConnectionRef r) (dataChannelRef r) (fileChunksRef r)
              (receivedSizeRef r) (totalSizeRef r) (fileNameRef r)
              (fileTypeRef r) t0,
       Send (FileInfo (file_name file) (Z.of_N (file_size file)) (file_type file))
         :: readSlice clock file t0 0 0)
  | _ => (r, [Toast "Connection Error" "Data channel is not open"])
  end.

(** ** The data channel and the receiving side *)

(** The frames handed to [dataChannelRef.current.send], in call order. The
    channel is created with [ordered: true]: it delivers them to the peer's
    [onmessage] in this order. *)
Definition sent (effects : list Effect) : list Frame :=
  omap (λ e, match e with Send frame => Some frame | _ => None end) effects.

(** The payloads of the binary frames among [frames]. *)
Definition chunkData (frames : list Frame) : list (list Byte.byte) :=
  omap (λ frame, match frame with Chunk data => Some data | _ => None end)
       frames.

(** [byteLength] of each binary frame. *)
Definition chunkLengths (frames : list Frame) : list N :=
  (λ data : list Byte.byte, N.of_nat (length data)) <$> chunkData frames.

(** The values passed to [setProgress], in call order. *)
Definition progressReports (effects : list Effect) : list num :=
  omap (λ e, match e with SetProgress p => Some p | _ => None end) effects.

(** The files handed to the user: name, MIME type, content. *)
Definition downloads (effects : list Effect)
    : list (string * string * list Byte.byte) :=
  omap (λ e, match e with
             | Download name type payload => Some (name, type, payload)
             | _ => None
             end) effects.

(** The peer's [onmessage] on each frame in turn; [clock k] is the reading
    of [Date.now()] while the [k]-th frame is handled. *)
Fixpoint receive (clock : nat → Z) (k : nat) (frames : list Frame) (r : Refs)
    : Refs * list Effect :=
  match frames with
  | [] => (r, [])
  | frame :: rest =>
      let step := handleDataChannelMessage (clock k) frame r in
      let tail := receive clock (S k) rest step.1 in
      (tail.1, step.2 ++ tail.2)
  end.

(** ** Notions used to state the properties of the hook *)

Definition sumN (l : list N) : N := foldr N.add 0%N l.

(** [ceil(n / d)] on naturals. *)
Definition ceilDiv (n d : N) : N := ((n + d - 1) / d)%N.

(** Total [byteLength] of an accumulator. *)
Definition byteLength (chunks : list (list Byte.byte)) : Z :=
  foldr (λ chunk acc, (Z.of_nat (length chunk) + acc)%Z) 0%Z chunks.

(** Successive values are non-decreasing. *)
Fixpoint nondecreasing (l : list num) : Prop :=
  match l with
  | a :: (b :: _) as rest => le a b ∧ nondecreasing rest
  | _ => True
  end.

(** The operations of the hook that write its refs. [initWebRTC] and
    [ondatachannel] store the connection and the channel; the channel's
    [readyState] changes on its own. *)
Inductive hookStep : Refs → Refs → Prop :=
| step_select files r :
    hookStep r (handleFileSelect files r).1
| step_message now data r :
    hookStep r (handleDataChannelMessage now data r).1
| step_send t0 clock file r :
    hookStep r (sendFile t0 clock file r).1
| step_reset r :
    hookStep r (resetConnection r).1
| step_channel pc dc r :
    hookStep r (mkRefs pc dc (fileChunksRef r) (receivedSizeRef r)
                       (totalSizeRef r) (fileNameRef r) (fileTypeRef r)
                       (startTimeRef r)).

(** The states of the refs the hook can be in. *)
Definition reachable (r : Refs) : Prop := rtc hookStep initialRefs r.

(** ** Starting a connection *)

(** [peerConnection.connectionState] *)
Inductive ConnectionState :=
| StateNew | StateConnecting | StateConnected
| StateDisconnected | StateFailed | StateClosed.

(** [peerConnection.onconnectionstatechange], as installed by
    [initWebRTC(code, isSender)] while [selected] was the selected file:
    the handler closes over both. [sendFile] contains no [await]: it runs
    within the handler up to the first read, and its reads follow. *)
Definition onconnectionstatechange (state : ConnectionState)
    (isSender : bool) (selected : option File)
    (t0 : Z) (clock : nat → Z) (r : Refs) : Refs * list Effect :=
  match state with
  | StateConnected =>
      let transfer :=
        match selected with
        | Some file => if isSender then sendFile t0 clock file r else (r, [])
        | None => (r, [])
        end in
      (transfer.1,
       [SetIsConnected true; SetStatus "Connected! Ready for file transfer."]
       ++ transfer.2)
  | StateDisconnected | StateFailed =>
      (r, [SetIsConnected false;
           SetStatus "Connection lost. Please try again.";
           Toast "Connection Lost" "The peer connection was lost"])
  | _ => (r, [])
  end.

(** The statements of [initWebRTC(code, isSender)] that run during the
    call: the new connection is stored; the sender creates its data
    channel, which starts out connecting, and stores it; the room is
    joined on the signaling socket. The socket is taken to be there, as
    it is once the hook is mounted ([socketRef.current?.emit] emits
    nothing on a missing one). The callbacks the call installs run later;
    those on the socket drive the WebRTC negotiation. *)
Definition initWebRTC (code : string) (isSender : bool) (r : Refs)
    : Refs * list Effect :=
  (mkRefs true (if isSender then Some Connecting else dataChannelRef r)
          (fileChunksRef r) (receivedSizeRef r) (totalSizeRef r)
          (fileNameRef r) (fileTypeRef r) (startTimeRef r),
   [SocketEmit (Relay.JoinRoom code isSender)]).

(** [generateCode], with [code] the result of [nanoid(8)] and [selected]
    the selected file. *)
Definition generateCode (code : string) (selected : option File) (r : Refs)
    : Refs * list Effect :=
  match selected with
  | None => (r, [])
  | Some _ =>
      let started := initWebRTC code true r in
      (started.1, SetShareCode code :: started.2)
  end.

(** [connectWithCode(code)]: the empty string is falsy. *)
Definition connectWithCode (code : string) (r : Refs) : Refs * list Effect :=
  if String.eqb code "" then (r, [])
  else
    let started := initWebRTC code false r in
    (started.1, SetStatus "Connecting..." :: started.2).

(** The messages a hook puts on its signaling socket, as the events of
    connection [id] on the server. *)
Definition socketEvents (id : Relay.ConnId) (effects : list Effect)
    : list (Relay.ConnId * Relay.ClientMsg) :=
  omap (λ e, match e with SocketEmit m => Some (id, m) | _ => None end)
       effects.

(** ** More notions used to state properties of the hook *)

(** The text frames the receiver does nothing with, but log a parse
    error. *)
Definition ignoredText (frame : Frame) : bool :=
  match frame with
  | OtherJson | Malformed => true
  | _ => false
  end.

(** What the receiver holds of a transfer. *)
Definition transferData (r : Refs)
    : list (list Byte.byte) * Z * Z * string * string :=
  (fileChunksRef r, receivedSizeRef r, totalSizeRef r,
   fileNameRef r, fileTypeRef r).

(** A percentage between 0 and 100. *)
Definition inRange (p : num) : Prop := le (ofZ 0) p ∧ le p (ofZ 100).

(** The formula of the ETA,
    [ceil(remainingBytes / (bytesMoved / elapsedSeconds))] with
    [elapsedSeconds] the elapsed milliseconds over 1000, in exact
    arithmetic. *)
Definition etaExact (elapsedMs moved total : Z) : Z :=
  Qceiling (inject_Z (total - moved)
            / (inject_Z moved / (inject_Z elapsedMs / 1000)))%Q.

(** The same formula with each quotient rounded to binary64. *)
Definition eta64 (elapsedMs moved total : Z) : Z :=
  Qceiling
    (round64 (inject_Z (total - moved)
              / round64 (inject_Z moved
                         / round64 (inject_Z elapsedMs / 1000))))%Q.

End Transfer.

(* ===================================================================== *)
(** * Properties of the signaling server *)
(* ===================================================================== *)

Module RelayFacts.

Import Relay.

Lemma truthy_Some (id : ConnId) : id ≠ "" → truthy (Some id) = true.
Proof. intros Hid. simpl. by destruct (String.eqb_spec id ""). Qed.

Lemma emitIfTruthy_Some (id : ConnId) m :
  id ≠ "" → emitIfTruthy (Some id) m = [mkEmit id m].
Proof. intros Hid. unfold emitIfTruthy. by rewrite truthy_Some. Qed.

Lemma joinRoom_fresh id roomId isSender (rooms : gmap string Room) :
  rooms !! roomId = None →
  (joinRoom id roomId isSender rooms).1
  = <[roomId := if isSender then mkRoom (Some id) None
                else mkRoom None (Some id)]> rooms.
Proof.
  intros Hfresh. unfold joinRoom.
  rewrite bool_decide_eq_false_2; [|rewrite Hfresh; by intros [? ?]].
  rewrite lookup_insert_eq. destruct isSender; simpl;
    by rewrite insert_insert_eq.
Qed.

Lemma joinRoom_present id roomId isSender (rooms : gmap string Room) room :
  rooms !! roomId = Some room →
  joinRoom id roomId isSender rooms
  = if isSender
    then (<[roomId := mkRoom (Some id) (receiver room)]> rooms, [])
    else (<[roomId := mkRoom (sender room) (Some id)]> rooms,
          emitIfTruthy (sender room) ReceiverJoined).
Proof.
  intros Hroom. unfold joinRoom.
  rewrite bool_decide_eq_true_2; [|by rewrite Hroom].
  by rewrite Hroom.
Qed.

(** C2. For every share code and distinct connection ids [A] and [B]:
    after [A] joins the code as sender and then [B] as receiver, on a
    registry that had no room for the code, the room holds [A] and [B],
    the peer of [A] is [B] and the peer of [B] is [A]; an offer of [A] is
    forwarded to [B], an answer of [B] to [A], and an ICE candidate of
    either to the other. The statement holds for every string used as a
    code, the valid share codes among them. *)
Theorem join_pair_routes (code : string) (A B : ConnId)
    (rooms : gmap string Room) :
  A ≠ "" → B ≠ "" → A ≠ B →
  rooms !! code = None →
  let joined :=
    (handle B (JoinRoom code false)
            (handle A (JoinRoom code true) rooms).1).1 in
  joined !! code = Some (mkRoom (Some A) (Some B))
  ∧ otherPeer A (mkRoom (Some A) (Some B)) = Some B
  ∧ otherPeer B (mkRoom (Some A) (Some B)) = Some A
  ∧ (∀ offer, handle A (Offer code offer) joined
              = (joined, [mkEmit B (OfferTo offer)]))
  ∧ (∀ answer, handle B (Answer code answer) joined
               = (joined, [mkEmit A (AnswerTo answer)]))
  ∧ (∀ candidate, handle A (IceCandidate code candidate) joined
                  = (joined, [mkEmit B (IceCandidateTo candidate)]))
  ∧ (∀ candidate, handle B (IceCandidate code candidate) joined
                  = (joined, [mkEmit A (IceCandidateTo candidate)])).
Proof.
  intros HA HB HAB Hfresh joined.
  assert (Hroom : joined !! code = Some (mkRoom (Some A) (Some B))).
  { subst joined. simpl. rewrite (joinRoom_fresh A code true rooms Hfresh).
    erewrite joinRoom_present by apply lookup_insert_eq.
    simpl. by rewrite lookup_insert_eq. }
  assert (HpeerA : otherPeer A (mkRoom (Some A) (Some B)) = Some B).
  { unfold otherPeer. simpl. by rewrite bool_decide_eq_true_2. }
  assert (HpeerB : otherPeer B (mkRoom (Some A) (Some B)) = Some A).
  { unfold otherPeer. simpl. rewrite bool_decide_eq_false_2; [done|].
    intros [= ->]. by apply HAB. }
  split_and!; try done; intros payload;
    unfold handle, onOffer, onAnswer, onIceCandidate; rewrite Hroom;
    cbn [sender receiver]; rewrite ?HpeerA, ?HpeerB;
    by rewrite emitIfTruthy_Some.
Qed.

Lemma join_pair_routes_witness :
  let joined :=
    (handle "B1" (JoinRoom "ab12cd34" false)
            (handle "A1" (JoinRoom "ab12cd34" true) ∅).1).1 in
  joined !! "ab12cd34" = Some (mkRoom (Some "A1") (Some "B1"))
  ∧ otherPeer "A1" (mkRoom (Some "A1") (Some "B1")) = Some "B1"
  ∧ otherPeer "B1" (mkRoom (Some "A1") (Some "B1")) = Some "A1"
  ∧ (∀ offer, handle "A1" (Offer "ab12cd34" offer) joined
              = (joined, [mkEmit "B1" (OfferTo offer)]))
  ∧ (∀ answer, handle "B1" (Answer "ab12cd34" answer) joined
               = (joined, [mkEmit "A1" (AnswerTo answer)]))
  ∧ (∀ candidate, handle "A1" (IceCandidate "ab12cd34" candidate) joined
                  = (joined, [mkEmit "B1" (IceCandidateTo candidate)]))
  ∧ (∀ candidate, handle "B1" (IceCandidate "ab12cd34" candidate) joined
                  = (joined, [mkEmit "A1" (IceCandidateTo candidate)])).
Proof.
  apply (join_pair_routes "ab12cd34" "A1" "B1" ∅); [done | done | done |].
  reflexivity.
Defined.

(** ** Relayed messages with nobody on the other side *)

(** A relayed message for a code that has no room is dropped. *)
Lemma relay_drops_without_room (id : ConnId) (roomId : string)
    (payload : Payload) (rooms : gmap string Room) :
  rooms !! roomId = None →
  handle id (Offer roomId payload) rooms = (rooms, [])
  ∧ handle id (Answer roomId payload) rooms = (rooms, [])
  ∧ handle id (IceCandidate roomId payload) rooms = (rooms, []).
Proof.
  intros Hnone. cbn [handle]. unfold onOffer, onAnswer, onIceCandidate.
  by rewrite Hnone.
Qed.

(** A relayed message leaves the registry as it was, and the registry is
    all the server keeps between events: whatever happens later, a peer
    joining included, happens as if the message had not arrived. *)
Lemma relayed_not_queued (id : ConnId) (m : ClientMsg)
    (rooms : gmap string Room) (out : list Emit)
    (later : list (ConnId * ClientMsg)) :
  handle id m rooms = (rooms, out) →
  run ((id, m) :: later) rooms
  = ((run later rooms).1, out ++ (run later rooms).2).
Proof.
  intros Hm. cbn [run]. rewrite Hm. by destruct (run later rooms).
Qed.

(** C6 as stated fails: the receiver of a room whose sender slot is empty
    sends an offer; nobody is on the opposite side, and the offer is not
    dropped: the server addresses it to the receiver slot, that is, back
    to the connection it came from. *)
Lemma offer_of_lone_receiver_is_echoed :
  peerOf "ab12cd34" "B1" {[ "ab12cd34" := mkRoom None (Some "B1") ]} = None
  ∧ handle "B1" (Offer "ab12cd34" "sdp")
           {[ "ab12cd34" := mkRoom None (Some "B1") ]}
    = ({[ "ab12cd34" := mkRoom None (Some "B1") ]},
       [mkEmit "B1" (OfferTo "sdp")]).
Proof. split; reflexivity. Qed.

(** C6, amended. A connection holds one slot of a room and the opposite
    slot is empty. An ICE candidate it sends is dropped. An offer is
    dropped when it comes from the holder of the sender slot, and an
    answer when it comes from the holder of the receiver slot; but an
    offer from the receiver, and an answer from the sender, are emitted
    back to the connection they came from, because the server addresses
    offers to the receiver slot and answers to the sender slot whoever
    sends them. In every case the handler returns normally and leaves the
    registry as it was, and nothing is queued: the events that follow, a
    peer joining included, are handled as if the message had not
    arrived. *)
Theorem relay_without_opposite_peer (id : ConnId) (roomId : string)
    (payload : Payload) (room : Room) (rooms : gmap string Room) :
  id ≠ "" →
  rooms !! roomId = Some room →
  occupies id room →
  peerOf roomId id rooms = None →
  let dropped m :=
    handle id m rooms = (rooms, [])
    ∧ ∀ later, run ((id, m) :: later) rooms = run later rooms in
  let echoed m back :=
    handle id m rooms = (rooms, [mkEmit id back])
    ∧ ∀ later, run ((id, m) :: later) rooms
               = ((run later rooms).1,
                  mkEmit id back :: (run later rooms).2) in
  dropped (IceCandidate roomId payload)
  ∧ (sender room = Some id →
     dropped (Offer roomId payload)
     ∧ echoed (Answer roomId payload) (AnswerTo payload))
  ∧ (receiver room = Some id →
     dropped (Answer roomId payload)
     ∧ echoed (Offer roomId payload) (OfferTo payload)).
Proof.
  intros Hid Hroom Hocc Hpeer dropped echoed.
  assert (Hdropped : ∀ m, handle id m rooms = (rooms, []) → dropped m).
  { intros m Hm. split; [done|]. intros later.
    rewrite (relayed_not_queued _ _ _ _ later Hm). by destruct (run later rooms). }
  assert (Hechoed : ∀ m back,
            handle id m rooms = (rooms, [mkEmit id back]) → echoed m back).
  { intros m back Hm. split; [done|]. intros later.
    by rewrite (relayed_not_queued _ _ _ _ later Hm). }
  unfold peerOf in Hpeer. rewrite Hroom in Hpeer.
  destruct room as [s r]. unfold occupies in Hocc. simpl in *.
  destruct (decide (s = Some id)) as [->|Hs].
  - (* [id] is the sender, the receiver slot is empty *)
    subst r. split_and!.
    + apply Hdropped. cbn [handle]. unfold onIceCandidate, otherPeer.
      rewrite Hroom. simpl. by rewrite bool_decide_eq_true_2.
    + intros _. split.
      * apply Hdropped. cbn [handle]. unfold onOffer. by rewrite Hroom.
      * apply Hechoed. cbn [handle]. unfold onAnswer. rewrite Hroom.
        simpl sender. by rewrite emitIfTruthy_Some.
    + intros [=].
  - (* [id] is the receiver, the sender slot is empty *)
    destruct Hocc as [? | ->]; [done|].
    rewrite decide_True in Hpeer by done. subst s. split_and!.
    + apply Hdropped. cbn [handle]. unfold onIceCandidate, otherPeer.
      rewrite Hroom. done.
    + intros [=].
    + intros _. split.
      * apply Hdropped. cbn [handle]. unfold onAnswer. by rewrite Hroom.
      * apply Hechoed. cbn [handle]. unfold onOffer. rewrite Hroom.
        simpl receiver. by rewrite emitIfTruthy_Some.
Qed.

Lemma relay_without_opposite_peer_witness :
  handle "A1" (IceCandidate "ab12cd34" "candidate")
         {[ "ab12cd34" := mkRoom (Some "A1") None ]}
  = ({[ "ab12cd34" := mkRoom (Some "A1") None ]}, [])
  ∧ handle "A1" (Offer "ab12cd34" "candidate")
           {[ "ab12cd34" := mkRoom (Some "A1") None ]}
    = ({[ "ab12cd34" := mkRoom (Some "A1") None ]}, []).
Proof.
  pose proof (relay_without_opposite_peer "A1" "ab12cd34" "candidate"
                (mkRoom (Some "A1") None)
                {[ "ab12cd34" := mkRoom (Some "A1") None ]}
                ltac:(discriminate) eq_refl (or_introl eq_refl) eq_refl)
    as H.
  split.
  - exact (proj1 (proj1 H)).
  - exact (proj1 (proj1 (proj1 (proj2 H) eq_refl))).
Defined.

(** ** Disconnection *)

Lemma truthy_wf (slot : option ConnId) :
  slot ≠ Some "" → truthy slot = bool_decide (slot ≠ None).
Proof.
  destruct slot as [id|]; simpl; [|done].
  intros Hid. by destruct (String.eqb_spec id "") as [->|].
Qed.

Lemma clearSlots_vacate id room :
  clearSlots id room
  = mkRoom (vacate id (sender room)) (vacate id (receiver room)).
Proof.
  unfold clearSlots, vacate.
  destruct room as [s r]; simpl.
  repeat (case_bool_decide || case_decide); simpl in *; congruence.
Qed.

Lemma vacate_wf id slot : slot ≠ Some "" → vacate id slot ≠ Some "".
Proof. unfold vacate. by case_decide. Qed.

(** One iteration of the loop, on the registry. *)
Lemma disconnectRoom_registry id rooms out roomId room :
  slots_wf room →
  rooms !! roomId = Some room →
  (disconnectRoom id (rooms, out) (roomId, room)).1
  = match leaveRoom id room with
    | Some room' => <[roomId := room']> rooms
    | None => delete roomId rooms
    end.
Proof.
  intros [Hs Hr] Hroom. unfold disconnectRoom, leaveRoom, occupies.
  destruct (decide (sender room = Some id ∨ receiver room = Some id))
    as [Hocc|Hocc].
  - rewrite (bool_decide_eq_true_2 _ Hocc) || (
      replace (bool_decide (sender room = Some id)
               || bool_decide (receiver room = Some id)) with true
        by (symmetry; apply orb_true_iff;
            rewrite !bool_decide_eq_true; exact Hocc)).
    rewrite clearSlots_vacate. cbn [sender receiver].
    rewrite !truthy_wf by by apply vacate_wf.
    destruct (decide (vacate id (sender room) = None
                      ∧ vacate id (receiver room) = None)) as [[H1 H2]|Hne].
    + rewrite H1, H2. by rewrite bool_decide_eq_false_2 by (by intros []).
    + destruct (vacate id (sender room)), (vacate id (receiver room));
        simpl; try done. exfalso; by apply Hne.
  - replace (bool_decide (sender room = Some id)
             || bool_decide (receiver room = Some id)) with false.
    + by rewrite insert_id.
    + symmetry. apply orb_false_iff. rewrite !bool_decide_eq_false. tauto.
Qed.

(** One iteration of the loop, on the notifications. *)
Lemma disconnectRoom_out id rooms out roomId room :
  (disconnectRoom id (rooms, out) (roomId, room)).2
  = out ++ (if decide (occupies id room)
            then emitIfTruthy (otherPeer id room) PeerDisconnected else []).
Proof.
  unfold disconnectRoom, occupies.
  destruct (decide (sender room = Some id ∨ receiver room = Some id))
    as [Hocc|Hocc].
  - replace (bool_decide (sender room = Some id)
             || bool_decide (receiver room = Some id)) with true
      by (symmetry; apply orb_true_iff; rewrite !bool_decide_eq_true; exact Hocc).
    by destruct (negb _ && negb _).
  - replace (bool_decide (sender room = Some id)
             || bool_decide (receiver room = Some id)) with false
      by (symmetry; apply orb_false_iff; rewrite !bool_decide_eq_false; tauto).
    by rewrite app_nil_r.
Qed.

(** The notification of one room, as it reaches the connections that are
    still there. *)
Lemma notification_delivered id room :
  slots_wf room →
  delivered id (if decide (occupies id room)
                then emitIfTruthy (otherPeer id room) PeerDisconnected else [])
  = (λ peer, mkEmit peer PeerDisconnected) <$> remaining id room.
Proof.
  intros [Hs Hr]. unfold remaining, occupants, delivered.
  destruct (decide (occupies id room)) as [Hocc|Hocc]; [|done].
  unfold otherPeer, occupies in *. destruct room as [s r]; simpl in *.
  assert (Hfilter : ∀ c m, filter (λ e, target e ≠ id) [mkEmit c m]
                           = if decide (c ≠ id) then [mkEmit c m] else []).
  { intros c m. rewrite filter_cons, filter_nil. simpl. by case_decide. }
  assert (Hkeep : ∀ c, filter (λ c, c ≠ id) [c]
                       = if decide (c ≠ id) then [c] else []).
  { intros c. rewrite filter_cons, filter_nil. by case_decide. }
  destruct s as [s|], r as [r|]; simpl.
  - assert (s ≠ "") by (intros ->; by apply Hs).
    assert (r ≠ "") by (intros ->; by apply Hr).
    rewrite filter_cons, Hkeep.
    destruct (decide (s = id)) as [->|Hsid].
    + rewrite bool_decide_eq_true_2 by done.
      rewrite emitIfTruthy_Some, Hfilter by done.
      repeat case_decide; naive_solver.
    + rewrite bool_decide_eq_false_2 by (by intros [= ?]).
      rewrite emitIfTruthy_Some, Hfilter by done.
      destruct Hocc as [[= ?]|[= ->]]; [done|].
      repeat case_decide; naive_solver.
  - destruct Hocc as [[= ->]|?]; [|done].
    rewrite bool_decide_eq_true_2 by done. simpl.
    rewrite Hkeep. case_decide; naive_solver.
  - destruct Hocc as [?|[= ->]]; [done|].
    simpl. rewrite Hkeep. case_decide; naive_solver.
  - by destruct Hocc.
Qed.
(** The loop, on any list of entries that the registry holds. *)
Lemma disconnect_loop id (entries : list (string * Room)) :
  NoDup entries.*1 →
  ∀ (rooms : gmap string Room) out,
    (∀ roomId room, (roomId, room) ∈ entries →
                    rooms !! roomId = Some room ∧ slots_wf room) →
    let result := foldl (disconnectRoom id) (rooms, out) entries in
    (∀ roomId, result.1 !! roomId
               = if decide (roomId ∈ entries.*1)
                 then rooms !! roomId ≫= leaveRoom id
                 else rooms !! roomId)
    ∧ result.2
      = out ++ entries ≫= (λ entry,
                 if decide (occupies id entry.2)
                 then emitIfTruthy (otherPeer id entry.2) PeerDisconnected
                 else []).
Proof.
  induction entries as [|[k room] rest IH]; intros Hnodup rooms out Hheld.
  { simpl. split; [done|]. by rewrite app_nil_r. }
  apply NoDup_cons in Hnodup as [Hk Hrest].
  destruct (Hheld k room) as [Hroom Hwf]; [by left|].
  cbn [foldl].
  pose proof (disconnectRoom_registry id rooms out k room Hwf Hroom) as Hreg.
  pose proof (disconnectRoom_out id rooms out k room) as Hout.
  destruct (disconnectRoom id (rooms, out) (k, room)) as [rooms1 out1].
  simpl in Hreg, Hout. subst rooms1 out1.
  set (rooms1 := match leaveRoom id room with
                 | Some room' => <[k:=room']> rooms
                 | None => delete k rooms
                 end).
  assert (Hother : ∀ roomId, roomId ≠ k → rooms1 !! roomId = rooms !! roomId).
  { intros roomId Hne. subst rooms1. destruct (leaveRoom id room).
    - by rewrite lookup_insert_ne.
    - by rewrite lookup_delete_ne. }
  assert (Hsame : rooms1 !! k = leaveRoom id room).
  { subst rooms1. destruct (leaveRoom id room).
    - by rewrite lookup_insert_eq.
    - by rewrite lookup_delete_eq. }
  destruct (IH Hrest rooms1
              (out ++ (if decide (occupies id room)
                       then emitIfTruthy (otherPeer id room) PeerDisconnected
                       else []))) as [IHreg IHout].
  { intros roomId room' Hin. destruct (Hheld roomId room') as [H1 H2]; [by right|].
    split; [|done]. rewrite Hother; [done|].
    intros ->. apply Hk. apply list_elem_of_fmap. by exists (k, room'). }
  split.
  - intros roomId. rewrite IHreg. rewrite fmap_cons. cbn [fst].
    destruct (decide (roomId = k)) as [->|Hne].
    + rewrite decide_False by done. rewrite decide_True by by left.
      by rewrite Hsame, Hroom.
    + rewrite Hother by done.
      destruct (decide (roomId ∈ rest.*1)).
      * by rewrite decide_True by by right.
      * rewrite decide_False; [done|]. by intros [?|?]%elem_of_cons.
  - rewrite IHout. simpl. by rewrite <- app_assoc.
Qed.

Lemma vacate_not_occupied id slot : vacate id slot ≠ Some id.
Proof. unfold vacate. by case_decide. Qed.

Lemma leaveRoom_not_occupied id room room' :
  leaveRoom id room = Some room' → ¬ occupies id room'.
Proof.
  unfold leaveRoom. destruct (decide (occupies id room)) as [Hocc|Hocc].
  - case_decide as Hempty; [done|]. intros [= <-] [Hs|Hr]; simpl in *;
      by eapply vacate_not_occupied.
  - by intros [= <-].
Qed.

Lemma leaveRoom_deletes id room :
  occupies id room → remaining id room = [] → leaveRoom id room = None.
Proof.
  intros Hocc. unfold leaveRoom, remaining, occupants, vacate.
  rewrite !decide_True by done. destruct room as [[s|] [r|]]; simpl;
    rewrite ?filter_cons, ?filter_nil;
    repeat case_decide; try done; naive_solver.
Qed.

Lemma remaining_at_most_one id room : (length (remaining id room) ≤ 1)%nat.
Proof.
  unfold remaining, occupants.
  destruct (decide (occupies id room)) as [Hocc|_]; [|simpl; lia].
  unfold occupies in Hocc.
  destruct room as [[s|] [r|]]; simpl in *;
    rewrite ?filter_cons, ?filter_nil;
    repeat case_decide; simpl; try lia;
    destruct Hocc as [[= ?]|[= ?]]; congruence.
Qed.

Lemma delivered_bind {A} id (f : A → list Emit) (l : list A) :
  delivered id (l ≫= f) = l ≫= (λ x, delivered id (f x)).
Proof.
  unfold delivered. induction l as [|x l IH]; [done|].
  rewrite !bind_cons, filter_app. by rewrite IH.
Qed.

(** Every visiting order holds each entry of the registry once. *)
Lemma visited_entries (rooms : gmap string Room) visited :
  visited ≡ₚ map_to_list rooms →
  NoDup visited.*1
  ∧ ∀ roomId room, (roomId, room) ∈ visited ↔ rooms !! roomId = Some room.
Proof.
  intros Hperm. split.
  - rewrite Hperm. apply NoDup_fst_map_to_list.
  - intros roomId room. rewrite Hperm. apply elem_of_map_to_list.
Qed.

(** The registry after the loop, room by room, whatever the order. *)
Lemma disconnectLoop_registry id visited (rooms : gmap string Room) :
  registry_wf rooms → visited ≡ₚ map_to_list rooms →
  ∀ roomId, (disconnectLoop id visited rooms).1 !! roomId
            = rooms !! roomId ≫= leaveRoom id.
Proof.
  intros Hwf Hperm roomId. unfold disconnectLoop.
  destruct (visited_entries rooms visited Hperm) as [Hnodup Hheld].
  destruct (disconnect_loop id visited Hnodup rooms []) as [Hreg _].
  { intros k room Hin%Hheld. split; [done|]. by apply (Hwf k room). }
  rewrite Hreg. case_decide as Hin; [done|].
  destruct (rooms !! roomId) as [room|] eqn:Hroom; [|done].
  exfalso. apply Hin. apply list_elem_of_fmap. exists (roomId, room).
  split; [done|]. by apply Hheld.
Qed.

(** The notifications of the loop, as emitted, in visiting order. *)
Lemma disconnectLoop_out id visited (rooms : gmap string Room) :
  registry_wf rooms → visited ≡ₚ map_to_list rooms →
  (disconnectLoop id visited rooms).2
  = visited ≫= (λ entry,
      if decide (occupies id entry.2)
      then emitIfTruthy (otherPeer id entry.2) PeerDisconnected else []).
Proof.
  intros Hwf Hperm. unfold disconnectLoop.
  destruct (visited_entries rooms visited Hperm) as [Hnodup Hheld].
  destruct (disconnect_loop id visited Hnodup rooms []) as [_ Hout].
  { intros k room Hin%Hheld. split; [done|]. by apply (Hwf k room). }
  by rewrite Hout.
Qed.

(** The notifications that reach a connection, in visiting order. *)
Lemma disconnectLoop_delivered id visited (rooms : gmap string Room) :
  registry_wf rooms → visited ≡ₚ map_to_list rooms →
  delivered id (disconnectLoop id visited rooms).2
  = visited ≫= (λ entry,
      (λ peer, mkEmit peer PeerDisconnected) <$> remaining id entry.2).
Proof.
  intros Hwf Hperm. rewrite disconnectLoop_out by done.
  rewrite delivered_bind.
  destruct (visited_entries rooms visited Hperm) as [_ Hheld].
  apply Forall_bind_ext, Forall_forall.
  intros [code room] Hin%Hheld. simpl.
  apply notification_delivered. by apply (Hwf code room).
Qed.

(** The order in which the rooms are visited changes neither the registry
    that results nor the notifications, but for the order they are
    emitted in. *)
Lemma disconnect_any_order id visited (rooms : gmap string Room) :
  registry_wf rooms → visited ≡ₚ map_to_list rooms →
  (disconnectLoop id visited rooms).1 = (onDisconnect id rooms).1
  ∧ (disconnectLoop id visited rooms).2 ≡ₚ (onDisconnect id rooms).2.
Proof.
  intros Hwf Hperm. unfold onDisconnect. split.
  - apply map_eq. intros roomId. by rewrite !disconnectLoop_registry.
  - rewrite !disconnectLoop_out by done. by rewrite Hperm.
Qed.

(** The registry after a disconnection, room by room. *)
Lemma onDisconnect_registry id (rooms : gmap string Room) :
  registry_wf rooms →
  ∀ roomId, (onDisconnect id rooms).1 !! roomId
            = rooms !! roomId ≫= leaveRoom id.
Proof. intros Hwf. by apply disconnectLoop_registry. Qed.

(** The notifications of a disconnection that reach a connection. *)
Lemma onDisconnect_delivered id (rooms : gmap string Room) :
  registry_wf rooms →
  delivered id (onDisconnect id rooms).2
  = map_to_list rooms ≫= (λ entry,
      (λ peer, mkEmit peer PeerDisconnected) <$> remaining id entry.2).
Proof. intros Hwf. by apply disconnectLoop_delivered. Qed.

(** The occupant facing [id] is what remains of the room. *)
Lemma remaining_peer id peer room :
  peer ≠ id →
  (sender room = Some id ∧ receiver room = Some peer)
  ∨ (receiver room = Some id ∧ sender room = Some peer) →
  remaining id room = [peer].
Proof.
  intros Hne Hpair. unfold remaining, occupants.
  rewrite decide_True by (unfold occupies; tauto).
  destruct room as [s r]; simpl in *.
  destruct Hpair as [[-> ->]|[-> ->]]; simpl;
    rewrite !filter_cons, filter_nil; repeat case_decide; congruence.
Qed.

(** C7. Connection [A] disconnects from a registry of non-empty socket
    ids, and the handler visits the rooms in the order [visited], any
    enumeration of the registry (the server's [Map] yields them in the
    order they were created). Every room becomes what leaving makes of it:
    [A] is out of every slot it held, a room left with both slots empty is
    deleted and a room [A] was not in is untouched; no room that is left
    holds [A]; and the [peer-disconnected] notifications that reach a
    connection are exactly one for each room [A] was in, addressed to the
    occupant [B] that remains there, when there is one, in the order the
    rooms are visited, and nothing else. A room has at most one such
    occupant. The registry that results does not depend on the order, and
    the notifications only in the order they are sent: both are those of
    [handle], which visits the rooms in key order. *)
Theorem disconnect_leaves_rooms (A : ConnId) (rooms : gmap string Room)
    (visited : list (string * Room)) :
  registry_wf rooms →
  visited ≡ₚ map_to_list rooms →
  let after := (disconnectLoop A visited rooms).1 in
  let out := (disconnectLoop A visited rooms).2 in
  (∀ code, after !! code = rooms !! code ≫= leaveRoom A)
  ∧ (∀ code room, after !! code = Some room → ¬ occupies A room)
  ∧ (∀ code room, rooms !! code = Some room → occupies A room →
       remaining A room = [] → after !! code = None)
  ∧ delivered A out
    = visited ≫= (λ entry,
        (λ peer, mkEmit peer PeerDisconnected) <$> remaining A entry.2)
  ∧ (∀ room, (length (remaining A room) ≤ 1)%nat)
  ∧ (∀ room B, B ≠ A →
       (sender room = Some A ∧ receiver room = Some B)
       ∨ (receiver room = Some A ∧ sender room = Some B) →
       remaining A room = [B])
  ∧ after = (handle A Disconnect rooms).1
  ∧ out ≡ₚ (handle A Disconnect rooms).2.
Proof.
  intros Hwf Hperm after out. subst after out. cbn [handle].
  pose proof (disconnectLoop_registry A visited rooms Hwf Hperm) as Hafter.
  split_and!.
  - done.
  - intros code room. rewrite Hafter.
    destruct (rooms !! code) as [room0|]; [|done]. simpl.
    apply leaveRoom_not_occupied.
  - intros code room Hroom Hocc Hnone. rewrite Hafter, Hroom. simpl.
    by apply leaveRoom_deletes.
  - by apply disconnectLoop_delivered.
  - apply remaining_at_most_one.
  - intros room B. apply remaining_peer.
  - by apply disconnect_any_order.
  - by apply disconnect_any_order.
Qed.

Lemma disconnect_leaves_rooms_witness :
  delivered "A1"
    (disconnectLoop "A1"
       [("zz", mkRoom (Some "A1") (Some "B1"));
        ("aa", mkRoom (Some "C1") (Some "A1"))]
       {[ "zz" := mkRoom (Some "A1") (Some "B1");
          "aa" := mkRoom (Some "C1") (Some "A1") ]}).2
  = [mkEmit "B1" PeerDisconnected; mkEmit "C1" PeerDisconnected].
Proof.
  assert (Hwf : registry_wf
                  {[ "zz" := mkRoom (Some "A1") (Some "B1");
                     "aa" := mkRoom (Some "C1") (Some "A1") ]}).
  { apply map_Forall_insert_2; [split; discriminate|].
    apply map_Forall_singleton. split; discriminate. }
  assert (Hperm : [("zz", mkRoom (Some "A1") (Some "B1"));
                   ("aa", mkRoom (Some "C1") (Some "A1"))]
                  ≡ₚ map_to_list
                       ({[ "zz" := mkRoom (Some "A1") (Some "B1");
                           "aa" := mkRoom (Some "C1") (Some "A1") ]}
                        : gmap string Room)).
  { rewrite map_to_list_insert by reflexivity.
    by rewrite map_to_list_singleton. }
  exact (proj1 (proj2 (proj2 (proj2
    (disconnect_leaves_rooms "A1" _ _ Hwf Hperm))))).
Defined.

(** A connection that joined a room in both roles and closes: the loop
    addresses the notification to the closing connection itself, and
    nobody receives it. *)
Example disconnect_of_both_slots :
  handle "A1" Disconnect {[ "ab12cd34" := mkRoom (Some "A1") (Some "A1") ]}
  = (∅, [mkEmit "A1" PeerDisconnected])
  ∧ delivered "A1"
      (handle "A1" Disconnect
              {[ "ab12cd34" := mkRoom (Some "A1") (Some "A1") ]}).2
    = [].
Proof. split; reflexivity. Qed.

(** ** The registry holds no empty socket id *)

Lemma joinRoom_wf id roomId isSender (rooms : gmap string Room) :
  id ≠ "" → registry_wf rooms →
  registry_wf (joinRoom id roomId isSender rooms).1.
Proof.
  intros Hid Hwf.
  assert (Hslot : Some id ≠ Some "") by (by intros [= ?]).
  destruct (rooms !! roomId) as [room|] eqn:Hroom.
  - rewrite (joinRoom_present _ _ _ _ _ Hroom).
    destruct (Hwf roomId room Hroom) as [Hs Hr].
    destruct isSender; simpl; by apply map_Forall_insert_2.
  - rewrite (joinRoom_fresh _ _ _ _ Hroom).
    apply map_Forall_insert_2; [|done]. by destruct isSender.
Qed.

Lemma leaveRoom_wf id room room' :
  slots_wf room → leaveRoom id room = Some room' → slots_wf room'.
Proof.
  intros [Hs Hr]. unfold leaveRoom.
  repeat case_decide; intros [= <-]; [|done].
  split; by apply vacate_wf.
Qed.

Lemma handle_wf id m (rooms : gmap string Room) :
  id ≠ "" → registry_wf rooms → registry_wf (handle id m rooms).1.
Proof.
  intros Hid Hwf. destruct m; try done.
  - by apply joinRoom_wf.
  - intros roomId room'. cbn [handle].
    rewrite (onDisconnect_registry id rooms Hwf).
    destruct (rooms !! roomId) as [room|] eqn:Hroom; [|done]. simpl.
    apply leaveRoom_wf. by apply (Hwf roomId room).
Qed.

(** Every registry the server reaches from the empty one, serving
    connections with non-empty ids, is well formed. *)
Lemma run_wf events (rooms : gmap string Room) :
  Forall (λ event, event.1 ≠ "") events →
  registry_wf rooms → registry_wf (run events rooms).1.
Proof.
  intros Hids. revert rooms.
  induction Hids as [|[id m] events Hid _ IH]; intros rooms Hwf; [done|].
  cbn [run]. pose proof (handle_wf id m rooms Hid Hwf) as Hwf1.
  destruct (handle id m rooms) as [rooms1 out1].
  specialize (IH rooms1 Hwf1). by destruct (run events rooms1).
Qed.

End RelayFacts.

(* ===================================================================== *)
(** * Properties of the arithmetic *)
(* ===================================================================== *)

Module JSFacts.

Import JS.

Lemma pow2_pos (e : Z) : (0 < pow2 e)%Q.
Proof. by apply Qpower_0_lt. Qed.

Lemma pow2_add (a b : Z) : (pow2 (a + b) == pow2 a * pow2 b)%Q.
Proof. by apply Qpower_plus. Qed.

Lemma pow2_le (a b : Z) : (a <= b)%Z → (pow2 a <= pow2 b)%Q.
Proof. intros Hab. by apply Qpower_le_compat_l. Qed.

Lemma pow2_lt (a b : Z) : (a < b)%Z → (pow2 a < pow2 b)%Q.
Proof. intros Hab. by apply Qpower_lt_compat_l. Qed.

Lemma pow2_Z (a : Z) : (0 <= a)%Z → (pow2 a == inject_Z (2 ^ a))%Q.
Proof. intros Ha. unfold pow2. by rewrite Zpower_Qpower. Qed.

(** Dividing by a power of two and multiplying back. *)
Lemma scale_back (q : Q) (e : Z) : (q / pow2 e * pow2 e == q)%Q.
Proof.
  rewrite Qmult_comm. apply Qmult_div_r. apply Qpower_not_0. discriminate.
Qed.

Lemma Qpositive_num (q : Q) : (0 < q)%Q → (0 < Qnum q)%Z.
Proof. unfold Qlt. simpl. lia. Qed.

(** [floorLog2 q] is the exponent of the power of two at or below [q]. *)
Lemma floorLog2_spec (q : Q) :
  (0 < q)%Q →
  (pow2 (floorLog2 q) <= q)%Q ∧ (q < pow2 (floorLog2 q + 1))%Q.
Proof.
  intros Hq. pose proof (Qpositive_num q Hq) as Hn.
  unfold floorLog2.
  set (n := Qnum q) in *. set (d := Z.pos (Qden q)).
  set (k := (Z.log2 n - Z.log2 d)%Z).
  assert (Hd : (0 < d)%Z) by done.
  destruct (Z.log2_spec n Hn) as [Hn1 Hn2].
  destruct (Z.log2_spec d Hd) as [Hd1 Hd2].
  pose proof (Z.log2_nonneg n) as Hln. pose proof (Z.log2_nonneg d) as Hld.
  assert (Hqd : (q * inject_Z d == inject_Z n)%Q).
  { destruct q as [qn qd]. unfold Qeq, d, n. simpl. lia. }
  assert (Hdpos : (0 < inject_Z d)%Q).
  { change 0%Q with (inject_Z 0). by rewrite <- Zlt_Qlt. }
  assert (Hlow : (pow2 (k - 1) < q)%Q).
  { apply (Qmult_lt_r _ _ (inject_Z d) Hdpos). rewrite Hqd.
    apply Qlt_le_trans with (pow2 (k - 1) * pow2 (Z.log2 d + 1))%Q.
    - apply Qmult_lt_l; [apply pow2_pos|].
      rewrite pow2_Z by lia. rewrite <- Zlt_Qlt.
      replace (Z.log2 d + 1)%Z with (Z.succ (Z.log2 d)) by lia. done.
    - rewrite <- pow2_add.
      replace (k - 1 + (Z.log2 d + 1))%Z with (Z.log2 n) by (unfold k; lia).
      rewrite pow2_Z by lia. by rewrite <- Zle_Qle. }
  assert (Hhigh : (q < pow2 (k + 1))%Q).
  { apply (Qmult_lt_r _ _ (inject_Z d) Hdpos). rewrite Hqd.
    apply Qlt_le_trans with (pow2 (k + 1) * pow2 (Z.log2 d))%Q.
    - rewrite <- pow2_add.
      replace (k + 1 + Z.log2 d)%Z with (Z.succ (Z.log2 n)) by (unfold k; lia).
      rewrite pow2_Z by lia. by rewrite <- Zlt_Qlt.
    - apply Qmult_le_l; [apply pow2_pos|].
      rewrite pow2_Z by lia. by rewrite <- Zle_Qle. }
  destruct (Qle_bool (pow2 k) q) eqn:Hk.
  - split; [by apply Qle_bool_iff|done].
  - split; [by apply Qlt_le_weak|].
    replace (k - 1 + 1)%Z with k by lia.
    apply Qnot_le_lt. intros Hle. apply Qle_bool_iff in Hle. congruence.
Qed.

Lemma floorLog2_mono (x y : Q) :
  (0 < x)%Q → (x <= y)%Q → (floorLog2 x <= floorLog2 y)%Z.
Proof.
  intros Hx Hxy.
  destruct (floorLog2_spec x Hx) as [Hx1 _].
  destruct (floorLog2_spec y) as [_ Hy2]; [by eapply Qlt_le_trans|].
  assert (Hlt : (pow2 (floorLog2 x) < pow2 (floorLog2 y + 1))%Q).
  { eapply Qle_lt_trans; [exact Hx1|]. by eapply Qle_lt_trans. }
  apply Qpower_lt_compat_l_inv in Hlt; [lia|done].
Qed.


(** ** Rounding to the nearest integer *)

(** Turns the outcome of a comparison into the order it stands for. *)
Ltac order_of_compare :=
  repeat match goal with
  | H : (_ ?= _)%Q = Eq |- _ => apply (proj2 (Qeq_alt _ _)) in H
  | H : (_ ?= _)%Q = Lt |- _ => apply (proj2 (Qlt_alt _ _)) in H
  | H : (_ ?= _)%Q = Gt |- _ => apply (proj2 (Qgt_alt _ _)) in H
  end.

Lemma nearestEven_floor (s : Q) :
  nearestEven s = Qfloor s ∨ nearestEven s = (Qfloor s + 1)%Z.
Proof.
  unfold nearestEven. destruct (_ ?= _)%Q; [destruct (Z.even _)| |]; tauto.
Qed.

Lemma nearestEven_Z (z : Z) : nearestEven (inject_Z z) = z.
Proof.
  unfold nearestEven. rewrite Qfloor_Z.
  replace (inject_Z z - inject_Z z ?= 1 # 2)%Q with Lt; [done|].
  symmetry. apply (proj1 (Qlt_alt _ _)). lra.
Qed.

Lemma nearestEven_mono (x y : Q) :
  (x <= y)%Q → (nearestEven x <= nearestEven y)%Z.
Proof.
  intros Hxy.
  pose proof (Qfloor_resp_le x y Hxy) as Hfloor.
  destruct (Z.eq_dec (Qfloor x) (Qfloor y)) as [Heq|Hne].
  - unfold nearestEven. rewrite <- Heq.
    set (f := Qfloor x).
    destruct (x - inject_Z f ?= 1 # 2)%Q eqn:Hx;
      destruct (y - inject_Z f ?= 1 # 2)%Q eqn:Hy;
      try (destruct (Z.even f)); try lia; exfalso;
      order_of_compare; lra.
  - destruct (nearestEven_floor x) as [-> | ->],
             (nearestEven_floor y) as [-> | ->]; lia.
Qed.

(** Rounding does not cross an integer. *)
Lemma nearestEven_ge (z : Z) (s : Q) :
  (inject_Z z <= s)%Q → (z <= nearestEven s)%Z.
Proof. intros H%nearestEven_mono. by rewrite nearestEven_Z in H. Qed.

Lemma nearestEven_le (z : Z) (s : Q) :
  (s <= inject_Z z)%Q → (nearestEven s <= z)%Z.
Proof. intros H%nearestEven_mono. by rewrite nearestEven_Z in H. Qed.

(** The result is within one half of the argument. *)
Lemma nearestEven_half (s : Q) :
  (s - (1 # 2) <= inject_Z (nearestEven s))%Q
  ∧ (inject_Z (nearestEven s) <= s + (1 # 2))%Q.
Proof.
  pose proof (Qfloor_le s) as Hlow. pose proof (Qlt_floor s) as Hhigh.
  unfold nearestEven.
  rewrite inject_Z_plus in Hhigh. change (inject_Z 1) with 1%Q in Hhigh.
  destruct (s - inject_Z (Qfloor s) ?= 1 # 2)%Q eqn:Hs;
    order_of_compare; try destruct (Z.even _);
    rewrite ?inject_Z_plus; change (inject_Z 1) with 1%Q; split; lra.
Qed.

(** ** Rounding to 53 bits *)

(** The scaled argument has its leading bit at position 52. *)
Lemma scaled_range (q : Q) :
  (0 < q)%Q →
  (inject_Z (2 ^ 52) <= q / pow2 (floorLog2 q - 52))%Q
  ∧ (q / pow2 (floorLog2 q - 52) <= inject_Z (2 ^ 53))%Q.
Proof.
  intros Hq. destruct (floorLog2_spec q Hq) as [Hlow Hhigh].
  set (e := (floorLog2 q - 52)%Z).
  assert (H52 : (pow2 (floorLog2 q) == inject_Z (2 ^ 52) * pow2 e)%Q).
  { rewrite <- pow2_Z by lia. rewrite <- pow2_add. unfold e.
    by replace (52 + (floorLog2 q - 52))%Z with (floorLog2 q) by lia. }
  assert (H53 : (pow2 (floorLog2 q + 1) == inject_Z (2 ^ 53) * pow2 e)%Q).
  { rewrite <- pow2_Z by lia. rewrite <- pow2_add. unfold e.
    by replace (53 + (floorLog2 q - 52))%Z with (floorLog2 q + 1)%Z by lia. }
  split.
  - apply Qle_shift_div_l; [apply pow2_pos|]. by rewrite <- H52.
  - apply Qle_shift_div_r; [apply pow2_pos|]. rewrite <- H53.
    by apply Qlt_le_weak.
Qed.

(** The rounded value stays in the binade of the argument. *)
Lemma roundPositive_range (q : Q) :
  (0 < q)%Q →
  (pow2 (floorLog2 q) <= roundPositive q)%Q
  ∧ (roundPositive q <= pow2 (floorLog2 q + 1))%Q.
Proof.
  intros Hq. destruct (scaled_range q Hq) as [Hlow Hhigh].
  unfold roundPositive. set (e := (floorLog2 q - 52)%Z) in *.
  apply nearestEven_ge in Hlow. apply nearestEven_le in Hhigh.
  split.
  - replace (floorLog2 q) with (52 + e)%Z by (unfold e; lia).
    rewrite pow2_add, (pow2_Z 52) by lia.
    apply Qmult_le_compat_r; [|apply Qlt_le_weak, pow2_pos].
    by rewrite <- Zle_Qle.
  - replace (floorLog2 q + 1)%Z with (53 + e)%Z by (unfold e; lia).
    rewrite pow2_add, (pow2_Z 53) by lia.
    apply Qmult_le_compat_r; [|apply Qlt_le_weak, pow2_pos].
    by rewrite <- Zle_Qle.
Qed.

Lemma roundPositive_pos (q : Q) : (0 < q)%Q → (0 < roundPositive q)%Q.
Proof.
  intros Hq. eapply Qlt_le_trans; [apply (pow2_pos (floorLog2 q))|].
  by apply roundPositive_range.
Qed.

Lemma roundPositive_mono (x y : Q) :
  (0 < x)%Q → (x <= y)%Q → (roundPositive x <= roundPositive y)%Q.
Proof.
  intros Hx Hxy.
  assert (Hy : (0 < y)%Q) by by eapply Qlt_le_trans.
  pose proof (floorLog2_mono x y Hx Hxy) as Hexp.
  destruct (Z.eq_dec (floorLog2 x) (floorLog2 y)) as [Heq|Hne].
  - unfold roundPositive. rewrite Heq.
    apply Qmult_le_compat_r; [|apply Qlt_le_weak, pow2_pos].
    rewrite <- Zle_Qle. apply nearestEven_mono.
    apply Qmult_le_compat_r; [done|].
    apply Qinv_le_0_compat, Qlt_le_weak, pow2_pos.
  - eapply Qle_trans; [by apply roundPositive_range|].
    eapply Qle_trans; [|by apply roundPositive_range].
    apply pow2_le. lia.
Qed.

(** The relative error of a rounding is at most [2 ^ -53]. *)
Lemma roundPositive_error (q : Q) :
  (0 < q)%Q →
  (q * (1 - pow2 (-53)) <= roundPositive q)%Q
  ∧ (roundPositive q <= q * (1 + pow2 (-53)))%Q.
Proof.
  intros Hq. destruct (scaled_range q Hq) as [Hlow _].
  unfold roundPositive. set (e := (floorLog2 q - 52)%Z) in *.
  set (s := (q / pow2 e)%Q) in *.
  destruct (nearestEven_half s) as [Hm1 Hm2].
  pose proof (pow2_pos e) as He.
  assert (Hs : (q == s * pow2 e)%Q) by (unfold s; by rewrite scale_back).
  assert (Hu : ((1 # 2) <= s * pow2 (-53))%Q).
  { apply Qle_trans with (inject_Z (2 ^ 52) * pow2 (-53))%Q.
    - by vm_compute.
    - apply Qmult_le_compat_r; [done|]. apply Qlt_le_weak, pow2_pos. }
  set (m := inject_Z (nearestEven s)) in *.
  set (u := pow2 (-53)) in *.
  split.
  - rewrite Hs.
    assert (Heq : (s * pow2 e * (1 - u) == (s - s * u) * pow2 e)%Q) by ring.
    rewrite Heq.
    apply Qmult_le_compat_r; [lra|by apply Qlt_le_weak].
  - rewrite Hs.
    assert (Heq : (s * pow2 e * (1 + u) == (s + s * u) * pow2 e)%Q) by ring.
    rewrite Heq.
    apply Qmult_le_compat_r; [lra|by apply Qlt_le_weak].
Qed.

(** ** [round64] *)

Lemma round64_proper (x y : Q) : (x == y)%Q → round64 x = round64 y.
Proof. intros Hxy. unfold round64. by rewrite (Qred_complete x y Hxy). Qed.

Lemma round64_positive (q : Q) :
  (0 < q)%Q → (round64 q == roundPositive (Qred q))%Q.
Proof.
  intros Hq. unfold round64.
  replace (Qred q ?= 0)%Q with Gt.
  - apply Qred_correct.
  - symmetry. apply (proj1 (Qgt_alt _ _)). by rewrite Qred_correct.
Qed.

Lemma round64_negative (q : Q) :
  (q < 0)%Q → (round64 q == - roundPositive (- Qred q))%Q.
Proof.
  intros Hq. unfold round64.
  replace (Qred q ?= 0)%Q with Lt.
  - apply Qred_correct.
  - symmetry. apply (proj1 (Qlt_alt _ _)). by rewrite Qred_correct.
Qed.

Lemma round64_zero (q : Q) : (q == 0)%Q → round64 q = 0%Q.
Proof.
  intros Hq. unfold round64.
  replace (Qred q ?= 0)%Q with Eq; [done|].
  symmetry. apply (proj1 (Qeq_alt _ _)). by rewrite Qred_correct.
Qed.

(** Rounding keeps the sign. *)
Lemma round64_pos (q : Q) : (0 < q)%Q → (0 < round64 q)%Q.
Proof.
  intros Hq. rewrite round64_positive by done.
  apply roundPositive_pos. by rewrite Qred_correct.
Qed.

Lemma round64_neg (q : Q) : (q < 0)%Q → (round64 q < 0)%Q.
Proof.
  intros Hq. rewrite round64_negative by done.
  assert (H : (0 < roundPositive (- Qred q))%Q).
  { apply roundPositive_pos. rewrite Qred_correct. lra. }
  lra.
Qed.

(** Rounding is monotone. *)
Lemma round64_mono (x y : Q) : (x <= y)%Q → (round64 x <= round64 y)%Q.
Proof.
  intros Hxy.
  destruct (Q_dec x 0) as [[Hx|Hx]|Hx], (Q_dec y 0) as [[Hy|Hy]|Hy].
  - rewrite !round64_negative by done.
    apply Qopp_le_compat, roundPositive_mono; rewrite !Qred_correct; lra.
  - apply Qlt_le_weak. eapply Qlt_trans; [by apply round64_neg|].
    by apply round64_pos.
  - rewrite (round64_zero y) by done.
    apply Qlt_le_weak. by apply round64_neg.
  - lra.
  - rewrite !round64_positive by done.
    apply roundPositive_mono; rewrite !Qred_correct; lra.
  - lra.
  - rewrite (round64_zero x) by done. lra.
  - rewrite (round64_zero x) by done.
    apply Qlt_le_weak. by apply round64_pos.
  - rewrite (round64_zero x), (round64_zero y) by done. lra.
Qed.

(** The result is in lowest terms, like every number of the model. *)
Lemma round64_canonical (q : Q) : Qred (round64 q) = round64 q.
Proof.
  unfold round64. destruct (Qred q ?= 0)%Q; [done| |];
    apply Qred_complete, Qred_correct.
Qed.

(** Relative error of [round64] on positive arguments. *)
Lemma round64_error (q : Q) :
  (0 < q)%Q →
  (q * (1 - pow2 (-53)) <= round64 q)%Q
  ∧ (round64 q <= q * (1 + pow2 (-53)))%Q.
Proof.
  intros Hq. rewrite round64_positive by done.
  rewrite <- (Qred_correct q) at 1 4.
  apply roundPositive_error. by rewrite Qred_correct.
Qed.

(** On the quotients and products of the examples below, [div] and [mul]
    give the results of IEEE 754 binary64 as the Standard Library defines
    it. *)
Example div_mul_are_binary64 :
  let d64 := SFdiv 53 1024 in
  let m64 := SFmul 53 1024 in
  div (ofZ 1800) (ofZ 1000) = ofSpecFloat (d64 (binary64 1800) (binary64 1000))
  ∧ div (ofZ 3) (div (ofZ 1800) (ofZ 1000))
    = ofSpecFloat (d64 (binary64 3) (d64 (binary64 1800) (binary64 1000)))
  ∧ div (ofZ 5) (div (ofZ 3) (div (ofZ 1800) (ofZ 1000)))
    = ofSpecFloat
        (d64 (binary64 5)
             (d64 (binary64 3) (d64 (binary64 1800) (binary64 1000))))
  ∧ div (ofZ 5242880) (div (ofZ 1048576) (div (ofZ 2600) (ofZ 1000)))
    = ofSpecFloat
        (d64 (binary64 5242880)
             (d64 (binary64 1048576) (d64 (binary64 2600) (binary64 1000))))
  ∧ mul (div (ofZ 1) (ofZ 3)) (ofZ 100)
    = ofSpecFloat (m64 (d64 (binary64 1) (binary64 3)) (binary64 100))
  ∧ mul (div (ofZ 2) (ofZ 7)) (ofZ 100)
    = ofSpecFloat (m64 (d64 (binary64 2) (binary64 7)) (binary64 100))
  ∧ mul (div (ofZ (-1)) (ofZ 3)) (ofZ 100)
    = ofSpecFloat (m64 (d64 (binary64 (-1)) (binary64 3)) (binary64 100)).
Proof. vm_compute. by split_and!. Qed.

End JSFacts.

(* ===================================================================== *)
(** * Properties of the hook *)
(* ===================================================================== *)

Module TransferFacts.

Import JS JSFacts Transfer.

(** ** File selection *)

(** C8. A selected file larger than 1 GiB (1024*1024*1024 bytes) is
    rejected: the handler writes no ref and calls no state setter, so the
    selected file, share code, progress, ETA, status and connection flag
    all stay as they were; its only effect is the toast: nothing goes to
    the signaling socket (no room is joined) or to the data channel. *)
Theorem oversized_file_rejected (file : File) (others : list File)
    (r : Refs) (ui : UI) :
  (1024 * 1024 * 1024 < file_size file)%N →
  let result := handleFileSelect (file :: others) r in
  result.1 = r
  ∧ renders ui result.2 = ui
  ∧ result.2 = [Toast "File too large" "Maximum file size is 1GB"]
  ∧ sent result.2 = []
  ∧ (∀ m, SocketEmit m ∉ result.2).
Proof.
  intros Hbig result. subst result. unfold handleFileSelect.
  replace (MAX_FILE_SIZE <? file_size file)%N with true
    by (symmetry; apply N.ltb_lt; exact Hbig).
  split_and!; try done.
  intros m Hin. apply list_elem_of_singleton in Hin. discriminate.
Qed.

Lemma oversized_file_rejected_witness :
  (1024 * 1024 * 1024 < file_size (mkFile "big.iso" 1073741825 "" (λ _, Byte.x00)))%N
  ∧ (handleFileSelect [mkFile "big.iso" 1073741825 "" (λ _, Byte.x00)]
                      initialRefs).1 = initialRefs.
Proof.
  split; [reflexivity|].
  apply (oversized_file_rejected
           (mkFile "big.iso" 1073741825 "" (λ _, Byte.x00)) [] initialRefs
           initialUI).
  reflexivity.
Defined.

(** A file of exactly 1 GiB is accepted: the transfer state is reset and
    the file recorded. *)
Lemma largest_file_accepted (file : File) (others : list File) (r : Refs) :
  (file_size file <= MAX_FILE_SIZE)%N →
  selectedFile (renders initialUI (handleFileSelect (file :: others) r).2)
  = Some file.
Proof.
  intros Hfits. unfold handleFileSelect.
  replace (MAX_FILE_SIZE <? file_size file)%N with false
    by (symmetry; apply N.ltb_ge; exact Hfits).
  reflexivity.
Qed.

(** ** The receiving side *)

Lemma byteLength_app chunks1 chunks2 :
  byteLength (chunks1 ++ chunks2)
  = (byteLength chunks1 + byteLength chunks2)%Z.
Proof. induction chunks1 as [|c l IH]; simpl; [done|]. rewrite IH. lia. Qed.

Lemma byteLength_concat chunks :
  byteLength chunks = Z.of_nat (length (concat chunks)).
Proof.
  induction chunks as [|c l IH]; simpl; [done|].
  rewrite length_app, IH. lia.
Qed.

Lemma downloads_app e1 e2 : downloads (e1 ++ e2) = downloads e1 ++ downloads e2.
Proof. apply omap_app. Qed.

Lemma downloads_estimate startTime now moved total :
  downloads (estimate startTime now moved total) = [].
Proof. unfold estimate. by case_match. Qed.

Lemma progressReports_estimate startTime now moved total :
  progressReports (estimate startTime now moved total) = [].
Proof. unfold estimate. by case_match. Qed.

Lemma sent_estimate startTime now moved total :
  sent (estimate startTime now moved total) = [].
Proof. unfold estimate. by case_match. Qed.

(** A run of binary frames is appended to the accumulator, in receipt
    order, and counted; nothing is handed to the user meanwhile. *)
Lemma receive_chunks clock (chunks : list (list Byte.byte)) : ∀ k r,
  let result := receive clock k ((Chunk <$> chunks) ++ [FileComplete]) r in
  fileChunksRef result.1 = fileChunksRef r ++ chunks
  ∧ receivedSizeRef result.1 = (receivedSizeRef r + byteLength chunks)%Z
  ∧ totalSizeRef result.1 = totalSizeRef r
  ∧ downloads result.2
    = [(fileNameRef r, fileTypeRef r, concat (fileChunksRef r ++ chunks))].
Proof.
  induction chunks as [|c chunks IH]; intros k r.
  - simpl. rewrite app_nil_r. split_and!; try done. lia.
  - cbn [fmap list_fmap app receive].
    set (r1 := (handleDataChannelMessage (clock k) (Chunk c) r).1).
    destruct (IH (S k) r1) as (Hchunks & Hsize & Htotal & Hsaved).
    cbn [fst snd]. rewrite Hchunks, Hsize, Htotal.
    rewrite downloads_app, Hsaved.
    subst r1. cbn [handleDataChannelMessage fst snd fileChunksRef
                   receivedSizeRef totalSizeRef fileNameRef fileTypeRef].
    rewrite <- !app_assoc. cbn [app].
    change (downloads (SetProgress ?p :: ?l)) with (downloads l).
    rewrite downloads_estimate. split_and!; try done. simpl. lia.
Qed.

(** C5 as stated fails: after a [file-complete] frame the accumulator
    still holds the chunk received before it. *)
Lemma file_complete_keeps_accumulator :
  fileChunksRef
    (receive (λ k, Z.of_nat k + 1)%Z 0
       [FileInfo "a.bin" 1 "application/octet-stream";
        Chunk [Byte.x2a]; FileComplete] initialRefs).1
  ≠ [].
Proof. vm_compute. discriminate. Qed.

(** C5, amended. On a [file-complete] frame the receiver concatenates the
    accumulated chunks, in receipt order, into the payload it hands to the
    user under the announced name and type; it writes no ref: the
    accumulator still holds the same chunks afterwards. The accumulator is
    emptied by the next [file-info] frame, by a file selection that is
    accepted (a file of at most 1 GiB) and by [resetConnection]. A
    selection that is rejected or holds no file and [sendFile] leave it as
    it is, every frame but [file-info] keeps its chunks (a binary frame
    adds one), and every operation that writes the refs is one of the
    three that empty it or keeps the chunks it holds. *)
Theorem file_complete_saves_and_keeps (clock : nat → Z)
    (name fileType : string) (size : Z) (chunks : list (list Byte.byte))
    (r : Refs) :
  let frames := FileInfo name size fileType
                  :: (Chunk <$> chunks) ++ [FileComplete] in
  let result := receive clock 0 frames r in
  downloads result.2 = [(name, fileType, concat chunks)]
  ∧ fileChunksRef result.1 = chunks
  ∧ (∀ now r', (handleDataChannelMessage now FileComplete r').1 = r')
  ∧ (∀ now name' size' fileType' r',
       fileChunksRef
         (handleDataChannelMessage now (FileInfo name' size' fileType') r').1
       = [])
  ∧ (∀ file others r',
       fileChunksRef (handleFileSelect (file :: others) r').1
       = if (file_size file <=? MAX_FILE_SIZE)%N then []
         else fileChunksRef r')
  ∧ (∀ r', fileChunksRef (resetConnection r').1 = [])
  ∧ (∀ r', fileChunksRef (handleFileSelect [] r').1 = fileChunksRef r')
  ∧ (∀ t0 clock' file r',
       fileChunksRef (sendFile t0 clock' file r').1 = fileChunksRef r')
  ∧ (∀ now frame r',
       (∀ name' size' fileType', frame ≠ FileInfo name' size' fileType') →
       fileChunksRef (handleDataChannelMessage now frame r').1
       = fileChunksRef r'
         ++ match frame with Chunk data => [data] | _ => [] end)
  ∧ (∀ r1 r2, hookStep r1 r2 →
       (∃ now name' size' fileType',
          r2 = (handleDataChannelMessage now
                  (FileInfo name' size' fileType') r1).1)
       ∨ (∃ file others,
            (file_size file <= MAX_FILE_SIZE)%N
            ∧ r2 = (handleFileSelect (file :: others) r1).1)
       ∨ r2 = (resetConnection r1).1
       ∨ ∃ more, fileChunksRef r2 = fileChunksRef r1 ++ more).
Proof.
  intros frames result. subst frames result. cbn [receive].
  set (r1 := (handleDataChannelMessage (clock 0%nat)
                (FileInfo name size fileType) r).1).
  destruct (receive_chunks clock chunks 1%nat r1) as (Hchunks & _ & _ & Hsaved).
  cbn [fst snd].
  assert (Hselect : ∀ file others r',
            fileChunksRef (handleFileSelect (file :: others) r').1
            = if (file_size file <=? MAX_FILE_SIZE)%N then []
              else fileChunksRef r').
  { intros file others r'. unfold handleFileSelect.
    rewrite N.leb_antisym. by destruct (MAX_FILE_SIZE <? file_size file)%N. }
  assert (Hsend : ∀ t0 clock' file r',
            fileChunksRef (sendFile t0 clock' file r').1 = fileChunksRef r').
  { intros t0 clock' file r'. unfold sendFile. by repeat case_match. }
  assert (Hframe : ∀ now frame r',
            (∀ name' size' fileType', frame ≠ FileInfo name' size' fileType') →
            fileChunksRef (handleDataChannelMessage now frame r').1
            = fileChunksRef r'
              ++ match frame with Chunk data => [data] | _ => [] end).
  { intros now frame r' Hnot.
    destruct frame as [n s t| | | |data]; simpl; rewrite ?app_nil_r;
      try done. by destruct (Hnot n s t). }
  split_and!; [by rewrite downloads_app, Hsaved | by rewrite Hchunks
               | done.. |].
  intros ra rb Hstep.
  destruct Hstep as [files ra | now data ra | t0 clock' file ra | ra
                     | pc dc ra].
  - destruct files as [|file others].
    + do 3 right. exists []. by rewrite app_nil_r.
    + destruct (file_size file <=? MAX_FILE_SIZE)%N eqn:Hsize.
      * right. left. exists file, others. split; [|done].
        by apply N.leb_le.
      * do 3 right. exists []. by rewrite Hselect, Hsize, app_nil_r.
  - destruct data as [n s t| | | |data].
    + left. by exists now, n, s, t.
    + do 3 right. eexists. by apply Hframe.
    + do 3 right. eexists. by apply Hframe.
    + do 3 right. eexists. by apply Hframe.
    + do 3 right. eexists. by apply Hframe.
  - do 3 right. exists []. by rewrite Hsend, app_nil_r.
  - by do 2 right; left.
  - do 3 right. exists []. by rewrite app_nil_r.
Qed.

(** C10. In every state the refs can reach, the received size is the
    total byte length of the chunks in the accumulator; a [file-info]
    frame and [resetConnection] set both to empty and zero, and a binary
    frame appends the chunk and adds its length. *)
Theorem received_size_is_accumulated (r : Refs) :
  reachable r →
  receivedSizeRef r = byteLength (fileChunksRef r)
  ∧ (∀ now name size fileType,
       let r' := (handleDataChannelMessage now (FileInfo name size fileType) r).1 in
       fileChunksRef r' = [] ∧ receivedSizeRef r' = 0%Z)
  ∧ (∀ now data,
       let r' := (handleDataChannelMessage now (Chunk data) r).1 in
       fileChunksRef r' = fileChunksRef r ++ [data]
       ∧ receivedSizeRef r' = (receivedSizeRef r + Z.of_nat (length data))%Z
       ∧ receivedSizeRef r' = byteLength (fileChunksRef r'))
  ∧ (let r' := (resetConnection r).1 in
     fileChunksRef r' = [] ∧ receivedSizeRef r' = 0%Z).
Proof.
  intros Hreach.
  assert (Hinv : receivedSizeRef r = byteLength (fileChunksRef r)).
  { unfold reachable in Hreach. revert r Hreach.
    apply (rtc_ind_r (λ r, receivedSizeRef r = byteLength (fileChunksRef r)));
      [done|].
    intros r1 r2 _ Hstep IH.
    destruct Hstep as [files r1 | now data r1 | t0 clock file r1 | r1
                       | pc dc r1]; try done.
    - unfold handleFileSelect. destruct files as [|file ?]; [done|].
      by case_match.
    - destruct data; try done. simpl.
      rewrite byteLength_app, IH. simpl. lia.
    - unfold sendFile. by repeat case_match. }
  split_and!; try done.
  intros now data. split_and!; try done. simpl.
  rewrite byteLength_app, Hinv. simpl. lia.
Qed.

Lemma received_size_is_accumulated_witness :
  reachable (handleDataChannelMessage 7 (Chunk [Byte.x2a]) initialRefs).1
  ∧ receivedSizeRef (handleDataChannelMessage 7 (Chunk [Byte.x2a]) initialRefs).1
    = byteLength
        (fileChunksRef (handleDataChannelMessage 7 (Chunk [Byte.x2a]) initialRefs).1).
Proof.
  assert (H : reachable (handleDataChannelMessage 7 (Chunk [Byte.x2a]) initialRefs).1).
  { eapply rtc_l; [apply (step_message 7 (Chunk [Byte.x2a]))|]. apply rtc_refl. }
  split; [exact H|].
  exact (proj1 (received_size_is_accumulated _ H)).
Defined.


(** ** The sending side *)

Lemma length_offsets start len : length (offsets start len) = len.
Proof.
  revert start. induction len as [|len IH]; intros start; simpl; [done|].
  by rewrite IH.
Qed.

Lemma offsets_app start len1 len2 :
  offsets start (len1 + len2)
  = offsets start len1 ++ offsets (start + N.of_nat len1)%N len2.
Proof.
  revert start. induction len1 as [|len1 IH]; intros start; simpl.
  - by rewrite N.add_0_r.
  - rewrite IH. do 3 f_equal. lia.
Qed.

Lemma nextOffset_min file offset :
  (offset <= file_size file)%N →
  nextOffset file offset = N.min (offset + CHUNK_SIZE) (file_size file).
Proof.
  intros Hle. unfold nextOffset, slice.
  rewrite length_fmap, length_offsets. lia.
Qed.

Lemma slice_chunk file offset :
  (offset <= file_size file)%N →
  slice file offset (offset + CHUNK_SIZE)
  = file_byte file
      <$> offsets offset
            (N.to_nat (N.min CHUNK_SIZE (file_size file - offset))).
Proof.
  intros Hle. unfold slice. do 2 f_equal; lia.
Qed.

Lemma sent_app e1 e2 : sent (e1 ++ e2) = sent e1 ++ sent e2.
Proof. apply omap_app. Qed.

Lemma sent_onload file startTime now offset :
  sent (onload file startTime now offset)
  = [Chunk (slice file offset (offset + CHUNK_SIZE))].
Proof.
  unfold onload.
  change (sent (Send ?f :: SetProgress ?p :: ?l)) with (f :: sent l).
  by rewrite sent_estimate.
Qed.

(** Arithmetic of the chunk count: [rest] bytes are left to send. *)
Lemma full_chunks_step (rest : N) :
  (CHUNK_SIZE < rest)%N →
  ((rest - 1) / CHUNK_SIZE = (rest - CHUNK_SIZE - 1) / CHUNK_SIZE + 1)%N
  ∧ (rest - (rest - 1) / CHUNK_SIZE * CHUNK_SIZE
     = rest - CHUNK_SIZE
       - (rest - CHUNK_SIZE - 1) / CHUNK_SIZE * CHUNK_SIZE)%N.
Proof.
  intros Hlt.
  assert (Hpos : CHUNK_SIZE ≠ 0%N) by done.
  assert (Hq : ((rest - 1) / CHUNK_SIZE
                = (rest - CHUNK_SIZE - 1) / CHUNK_SIZE + 1)%N).
  { replace (rest - 1)%N with (rest - CHUNK_SIZE - 1 + 1 * CHUNK_SIZE)%N by lia.
    by rewrite N.div_add. }
  split; [done|]. rewrite Hq.
  pose proof (N.Div0.mul_div_le (rest - CHUNK_SIZE - 1) CHUNK_SIZE).
  lia.
Qed.

Lemma full_chunks_last (rest : N) :
  (rest <= CHUNK_SIZE)%N → ((rest - 1) / CHUNK_SIZE = 0)%N.
Proof. intros Hle. apply N.div_small. unfold CHUNK_SIZE in *. lia. Qed.

(** What [readSlice] puts on the channel from [offset] on: the rest of the
    file cut into chunks of [CHUNK_SIZE] bytes, the last one holding what
    is left, then the completion frame. *)
Lemma readSlice_frames clock file startTime k offset :
  (offset <= file_size file)%N →
  ∃ chunks,
    sent (readSlice clock file startTime k offset)
    = (Chunk <$> chunks) ++ [FileComplete]
    ∧ concat chunks
      = file_byte file <$> offsets offset (N.to_nat (file_size file - offset))
    ∧ (λ data : list Byte.byte, N.of_nat (length data)) <$> chunks
      = replicate (N.to_nat ((file_size file - offset - 1) / CHUNK_SIZE))
                  CHUNK_SIZE
        ++ [(file_size file - offset
             - (file_size file - offset - 1) / CHUNK_SIZE * CHUNK_SIZE)%N].
Proof.
  funelim (readSlice clock file startTime k offset); intros Hle;
    set (rest := (file_size file - offset)%N).
  - pose proof (proj1 (N.ltb_lt _ _) continue) as Hcont.
    rewrite (nextOffset_min _ _ Hle) in Hcont.
    assert (Hmore : (CHUNK_SIZE < rest)%N) by (subst rest; lia).
    assert (Hnext : nextOffset file offset = (offset + CHUNK_SIZE)%N)
      by (rewrite (nextOffset_min _ _ Hle); lia).
    match goal with
    | IH : _ → ∃ chunks, _ |- _ =>
        destruct IH as (chunks & Hsent & Hconcat & Hlens); [lia|]
    end.
    rewrite Hnext in Hsent, Hconcat, Hlens. rewrite Hnext.
    exists (slice file offset (offset + CHUNK_SIZE) :: chunks).
    rewrite sent_app, sent_onload, Hsent. split_and!.
    + done.
    + cbn [concat]. rewrite Hconcat, (slice_chunk _ _ Hle), <- fmap_app.
      f_equal.
      replace (N.min CHUNK_SIZE (file_size file - offset)) with CHUNK_SIZE by lia.
      replace (N.to_nat rest)
        with (N.to_nat CHUNK_SIZE
              + N.to_nat (file_size file - (offset + CHUNK_SIZE)))%nat
        by (subst rest; lia).
      rewrite offsets_app. by rewrite N2Nat.id.
    + rewrite fmap_cons, Hlens, (slice_chunk _ _ Hle).
      rewrite length_fmap, length_offsets, N2Nat.id.
      replace (N.min CHUNK_SIZE (file_size file - offset)) with CHUNK_SIZE by lia.
      destruct (full_chunks_step rest Hmore) as [Hq Hlast].
      replace (file_size file - (offset + CHUNK_SIZE))%N
        with (rest - CHUNK_SIZE)%N by (subst rest; lia).
      rewrite Hlast, Hq.
      replace (N.to_nat ((rest - CHUNK_SIZE - 1) / CHUNK_SIZE + 1))
        with (S (N.to_nat ((rest - CHUNK_SIZE - 1) / CHUNK_SIZE))) by lia.
      done.
  - match goal with
    | e : (_ <? _)%N = false |- _ =>
        pose proof (proj1 (N.ltb_ge _ _) e) as Hstop
    end.
    rewrite (nextOffset_min _ _ Hle) in Hstop.
    assert (Hlast : (rest <= CHUNK_SIZE)%N) by (subst rest; lia).
    exists [slice file offset (offset + CHUNK_SIZE)].
    rewrite sent_app, sent_onload, (slice_chunk _ _ Hle).
    replace (N.min CHUNK_SIZE (file_size file - offset)) with rest by lia.
    split_and!.
    + done.
    + cbn [concat]. by rewrite app_nil_r.
    + rewrite (full_chunks_last rest Hlast). cbn [fmap list_fmap].
      rewrite length_fmap, length_offsets, N2Nat.id.
      change (N.to_nat 0) with 0%nat. cbn [replicate app].
      f_equal. lia.
Qed.

Lemma chunkData_frames (chunks : list (list Byte.byte)) :
  chunkData ((Chunk <$> chunks) ++ [FileComplete]) = chunks.
Proof.
  unfold chunkData. rewrite omap_app. cbn [omap list_omap]. rewrite app_nil_r.
  induction chunks as [|c chunks IH]; [done|].
  cbn [fmap list_fmap omap list_omap]. f_equal. exact IH.
Qed.

Lemma sendFile_open t0 clock file r :
  dataChannelRef r = Some Open →
  (sendFile t0 clock file r).2
  = Send (FileInfo (file_name file) (Z.of_N (file_size file)) (file_type file))
      :: readSlice clock file t0 0 0.
Proof. intros Hopen. unfold sendFile. by rewrite Hopen. Qed.

(** The frames of a transfer: the metadata, the content in chunks, the
    completion. *)
Lemma sendFile_frames t0 clock file r :
  dataChannelRef r = Some Open →
  ∃ chunks,
    sent (sendFile t0 clock file r).2
    = FileInfo (file_name file) (Z.of_N (file_size file)) (file_type file)
        :: (Chunk <$> chunks) ++ [FileComplete]
    ∧ concat chunks = file_bytes file
    ∧ (λ data : list Byte.byte, N.of_nat (length data)) <$> chunks
      = replicate (N.to_nat ((file_size file - 1) / CHUNK_SIZE)) CHUNK_SIZE
        ++ [(file_size file
             - (file_size file - 1) / CHUNK_SIZE * CHUNK_SIZE)%N].
Proof.
  intros Hopen. rewrite (sendFile_open _ _ _ _ Hopen).
  destruct (readSlice_frames clock file t0 0 0) as (chunks & Hsent & Hcat & Hlen);
    [lia|].
  rewrite N.sub_0_r in Hcat, Hlen.
  exists chunks. split_and!; try done.
  change (sent (Send ?f :: ?l)) with (f :: sent l). by rewrite Hsent.
Qed.

Lemma fmap_offsets_succ {A} (f : N → A) start len :
  f <$> offsets (N.succ start) len
  = (λ i, f (N.succ i)) <$> offsets start len.
Proof.
  revert start. induction len as [|len IH]; intros start; simpl; [done|].
  by rewrite IH.
Qed.

(** The content of [fileOf name type content] is [content]. *)
Lemma file_bytes_fileOf name type content :
  file_bytes (fileOf name type content) = content.
Proof.
  unfold file_bytes, fileOf. cbn [file_size file_byte].
  rewrite Nat2N.id.
  induction content as [|b content IH]; [done|].
  cbn [length offsets fmap list_fmap]. f_equal.
  rewrite fmap_offsets_succ. etrans; [|exact IH].
  apply list_fmap_ext. intros _ i _. by rewrite N2Nat.inj_succ.
Qed.

(** C1. Every byte sequence, sent as a file over an open channel and
    delivered in send order, is handed to the receiving user unchanged,
    under the sender's name and type: the concatenation of the receiver's
    accumulated chunks at the completion frame is the input, and the total
    size the receiver recorded is the input's length. The receiver may
    start from any state, and no bound on the size is needed: the inputs of
    at most 1 GiB that a file selection lets through are covered. *)
Theorem round_trip (content : list Byte.byte) (name type : string)
    (t0 : Z) (senderClock receiverClock : nat → Z) (s r : Refs) :
  dataChannelRef s = Some Open →
  let file := fileOf name type content in
  let frames := sent (sendFile t0 senderClock file s).2 in
  let result := receive receiverClock 0 frames r in
  downloads result.2 = [(name, type, content)]
  ∧ concat (fileChunksRef result.1) = content
  ∧ totalSizeRef result.1 = Z.of_nat (length content).
Proof.
  intros Hopen file frames result. subst frames result.
  destruct (sendFile_frames t0 senderClock file s Hopen)
    as (chunks & -> & Hcat & _).
  unfold file in Hcat. rewrite file_bytes_fileOf in Hcat.
  cbn [receive].
  set (r1 := (handleDataChannelMessage (receiverClock 0%nat)
                (FileInfo (file_name file) (Z.of_N (file_size file))
                          (file_type file)) r).1).
  destruct (receive_chunks receiverClock chunks 1%nat r1)
    as (Hchunks & _ & Htotal & Hsaved).
  cbn [fst snd]. rewrite Hchunks, Htotal, downloads_app, Hsaved.
  subst r1 file. simpl. rewrite Hcat.
  split_and!; try done. lia.
Qed.

Lemma round_trip_witness :
  dataChannelRef (mkRefs true (Some Open) [] 0 0 "" "" 0) = Some Open
  ∧ downloads
      (receive (λ k, Z.of_nat k + 5)%Z 0
         (sent (sendFile 1 (λ k, Z.of_nat k + 2)%Z
                         (fileOf "a.bin" "application/octet-stream"
                                 [Byte.x01; Byte.x02; Byte.x03])
                         (mkRefs true (Some Open) [] 0 0 "" "" 0)).2)
         initialRefs).2
    = [("a.bin", "application/octet-stream", [Byte.x01; Byte.x02; Byte.x03])].
Proof.
  split; [reflexivity|].
  apply (round_trip [Byte.x01; Byte.x02; Byte.x03] "a.bin"
                    "application/octet-stream" 1 (λ k, Z.of_nat k + 2)%Z
                    (λ k, Z.of_nat k + 5)%Z
                    (mkRefs true (Some Open) [] 0 0 "" "" 0) initialRefs).
  reflexivity.
Defined.

(** ** Chunk sizes *)

Lemma sumN_app l1 l2 : sumN (l1 ++ l2) = (sumN l1 + sumN l2)%N.
Proof. induction l1 as [|x l1 IH]; simpl; [done|]. rewrite IH. lia. Qed.

Lemma sumN_replicate count x : sumN (replicate count x) = (N.of_nat count * x)%N.
Proof. induction count as [|count IH]; simpl; [done|]. rewrite IH. lia. Qed.

(** The number of full chunks before the last one, and what the last one
    holds. *)
Lemma last_chunk_bounds (n : N) :
  let full := ((n - 1) / CHUNK_SIZE)%N in
  (full * CHUNK_SIZE <= n)%N
  ∧ (n - full * CHUNK_SIZE <= CHUNK_SIZE)%N
  ∧ (0 < n → 0 < n - full * CHUNK_SIZE)%N
  ∧ (0 < n → full + 1 = ceilDiv n CHUNK_SIZE)%N.
Proof.
  intros full.
  assert (Hpos : CHUNK_SIZE ≠ 0%N) by done.
  pose proof (N.Div0.mul_div_le (n - 1) CHUNK_SIZE) as Hlow.
  pose proof (N.mul_succ_div_gt (n - 1) CHUNK_SIZE Hpos) as Hhigh.
  fold full in Hlow, Hhigh.
  split_and!; try lia.
  intros Hn. unfold ceilDiv.
  replace (n + CHUNK_SIZE - 1)%N with (n - 1 + 1 * CHUNK_SIZE)%N by lia.
  by rewrite N.div_add.
Qed.

(** C3 as stated fails on the empty file: it travels as one binary
    frame, of no bytes, where [ceil(0 / 1048576)] is zero. *)
Lemma empty_file_sends_one_frame :
  length (chunkLengths
            (sent (sendFile 1 (λ k, Z.of_nat k + 2)%Z
                            (fileOf "empty.txt" "text/plain" [])
                            (mkRefs true (Some Open) [] 0 0 "" "" 0)).2))
  ≠ N.to_nat (ceilDiv (file_size (fileOf "empty.txt" "text/plain" []))
                      CHUNK_SIZE).
Proof. vm_compute. discriminate. Qed.

(** C3, amended. The binary frames of a transfer are all of exactly
    [CHUNK_SIZE] = 1,048,576 bytes except the last, which holds what is
    left and is never longer; their lengths add up to the size [n] of the
    file. A file of [n >= 1] bytes travels in [ceil(n / 1,048,576)] binary
    frames, the last one not empty; an empty file travels in one empty
    binary frame; a file of 3 MiB in exactly three frames of 1 MiB. *)
Theorem chunk_frames (t0 : Z) (clock : nat → Z) (file : File) (r : Refs) :
  dataChannelRef r = Some Open →
  let n := file_size file in
  let lengths := chunkLengths (sent (sendFile t0 clock file r).2) in
  CHUNK_SIZE = 1048576%N
  ∧ (∃ full last,
       lengths = replicate full CHUNK_SIZE ++ [last]
       ∧ (last <= CHUNK_SIZE)%N
       ∧ (0 < n → 0 < last)%N)
  ∧ sumN lengths = n
  ∧ (0 < n → N.of_nat (length lengths) = ceilDiv n CHUNK_SIZE)%N
  ∧ (n = 0%N → lengths = [0%N])
  ∧ (n = (3 * CHUNK_SIZE)%N → lengths = [CHUNK_SIZE; CHUNK_SIZE; CHUNK_SIZE]).
Proof.
  intros Hopen n lengths.
  destruct (sendFile_frames t0 clock file r Hopen) as (chunks & Hsent & _ & Hlen).
  assert (Hlengths : lengths
            = replicate (N.to_nat ((n - 1) / CHUNK_SIZE)) CHUNK_SIZE
              ++ [(n - (n - 1) / CHUNK_SIZE * CHUNK_SIZE)%N]).
  { subst lengths. unfold chunkLengths. rewrite Hsent.
    change (chunkData (FileInfo ?a ?b ?c :: ?l)) with (chunkData l).
    by rewrite chunkData_frames. }
  clearbody lengths. subst lengths.
  destruct (last_chunk_bounds n) as (Hlow & Hlast & Hnonempty & Hcount).
  split_and!.
  - done.
  - by eexists _, _.
  - rewrite sumN_app, sumN_replicate, N2Nat.id. simpl. lia.
  - intros Hn. rewrite length_app, length_replicate. simpl.
    rewrite <- (Hcount Hn). lia.
  - intros ->. done.
  - intros ->. done.
Qed.

Lemma chunk_frames_witness :
  dataChannelRef (mkRefs true (Some Open) [] 0 0 "" "" 0) = Some Open
  ∧ sumN (chunkLengths
            (sent (sendFile 1 (λ k, Z.of_nat k + 2)%Z
                            (mkFile "video.mp4" 3145728 "video/mp4"
                                    (λ _, Byte.x00))
                            (mkRefs true (Some Open) [] 0 0 "" "" 0)).2))
    = 3145728%N.
Proof.
  split; [reflexivity|].
  apply (chunk_frames 1 (λ k, Z.of_nat k + 2)%Z
           (mkFile "video.mp4" 3145728 "video/mp4" (λ _, Byte.x00))
           (mkRefs true (Some Open) [] 0 0 "" "" 0)).
  reflexivity.
Defined.

(** ** Progress and ETA arithmetic *)

Lemma isZero_false (q : Q) : ¬ (q == 0)%Q → isZero q = false.
Proof.
  intros Hne. unfold isZero. apply not_true_is_false.
  intros Heq. by apply Hne, Qeq_bool_iff.
Qed.

Lemma isZero_true (q : Q) : (q == 0)%Q → isZero q = true.
Proof. intros Heq. by apply Qeq_bool_iff. Qed.

Lemma Qred_zero (q : Q) : (q == 0)%Q → Qred q = 0%Q.
Proof. intros Heq. by rewrite (Qred_complete _ _ Heq). Qed.

Lemma gtb_positive (q : Q) : (0 < q)%Q → gtb (Num q) (ofZ 0) = true.
Proof.
  intros Hpos. unfold gtb, ofZ. apply negb_true_iff, not_true_is_false.
  intros Hle%Qle_bool_iff. by apply (Qlt_not_le _ _ Hpos).
Qed.

Lemma gtb_not_positive (q : Q) : (q <= 0)%Q → gtb (Num q) (ofZ 0) = false.
Proof.
  intros Hle. unfold gtb, ofZ. apply negb_false_iff. by apply Qle_bool_iff.
Qed.

Lemma inject_Z_pos (z : Z) : (0 < z)%Z → (0 < inject_Z z)%Q.
Proof. intros Hz. change 0%Q with (inject_Z 0). by rewrite <- Zlt_Qlt. Qed.

Lemma thousand_nonzero : ¬ (inject_Z 1000 == 0)%Q.
Proof. intros H. unfold Qeq in H. simpl in H. discriminate. Qed.

Lemma div_Num (x y : Q) :
  ¬ (y == 0)%Q → div (Num x) (Num y) = Num (round64 (x / y)).
Proof. intros Hy. unfold div. by rewrite isZero_false. Qed.

Lemma Qdiv_pos (x y : Q) : (0 < x)%Q → (0 < y)%Q → (0 < x / y)%Q.
Proof.
  intros Hx Hy. apply Qlt_shift_div_l; [done|]. by rewrite Qmult_0_l.
Qed.

Lemma Qpos_nonzero (q : Q) : (0 < q)%Q → ¬ (q == 0)%Q.
Proof. intros Hpos Heq. rewrite Heq in Hpos. by apply (Qlt_irrefl 0). Qed.

Lemma inject_Z_sub (a b : Z) : (inject_Z (a - b) == inject_Z a - inject_Z b)%Q.
Proof.
  unfold Z.sub, Qminus. by rewrite inject_Z_plus, inject_Z_opp.
Qed.

Lemma Qdiv_mult (x y : Q) : (0 < y)%Q → (x / y * y == x)%Q.
Proof.
  intros Hy. rewrite Qmult_comm. apply Qmult_div_r. by apply Qpos_nonzero.
Qed.

(** The elapsed seconds and the bytes per second, as computed, are
    positive once time has elapsed and bytes have moved. *)
Lemma rate_positive (elapsedMs moved : Z) :
  (0 < elapsedMs)%Z → (0 < moved)%Z →
  (0 < round64 (inject_Z elapsedMs / 1000))%Q
  ∧ (0 < round64 (inject_Z moved / round64 (inject_Z elapsedMs / 1000)))%Q.
Proof.
  intros Helapsed Hmoved.
  assert (Hsec : (0 < round64 (inject_Z elapsedMs / 1000))%Q)
    by by apply round64_pos, Qdiv_pos; [apply inject_Z_pos|].
  split; [done|].
  apply round64_pos, Qdiv_pos; [by apply inject_Z_pos|done].
Qed.

(** The ETA computed once bytes have moved and the clock has advanced. *)
Lemma estimate_value (startTime now moved total : Z) :
  (0 < startTime)%Z → (0 < moved)%Z → (0 < now - startTime)%Z →
  estimate startTime now moved total
  = [SetEstimatedTime (ofZ (eta64 (now - startTime) moved total))].
Proof.
  intros Hstart Hmoved Helapsed. unfold estimate.
  replace (0 <? startTime)%Z with true by (symmetry; by apply Z.ltb_lt).
  destruct (rate_positive _ _ Helapsed Hmoved) as [Hsec Hbps].
  unfold ofZ.
  rewrite (div_Num (inject_Z (now - startTime))) by apply thousand_nonzero.
  rewrite (div_Num (inject_Z moved)) by by apply Qpos_nonzero.
  rewrite gtb_positive by done.
  rewrite div_Num by by apply Qpos_nonzero.
  reflexivity.
Qed.

(** No byte moved yet, or no time elapsed: the ETA is set to 0. *)
Lemma estimate_calculating (startTime now moved total : Z) :
  (0 < startTime)%Z → moved = 0%Z ∨ (now - startTime = 0)%Z →
  estimate startTime now moved total = [SetEstimatedTime (ofZ 0)].
Proof.
  intros Hstart Hnone. unfold estimate.
  replace (0 <? startTime)%Z with true by (symmetry; by apply Z.ltb_lt).
  do 2 f_equal.
  destruct (decide (now - startTime = 0)%Z) as [->|Hms].
  - replace (div (ofZ 0) (ofZ 1000)) with (Num 0) by by vm_compute.
    change (div (ofZ moved) (Num 0))
      with (if isZero (inject_Z moved) then NaN
            else if isNeg (inject_Z moved) then NegInfinity else Infinity).
    by destruct (isZero (inject_Z moved)), (isNeg (inject_Z moved)).
  - destruct Hnone as [->|?]; [|done].
    unfold ofZ.
    rewrite (div_Num (inject_Z (now - startTime))) by apply thousand_nonzero.
    assert (Hsec : ¬ (round64 (inject_Z (now - startTime) / inject_Z 1000)
                      == 0)%Q).
    { assert (Hne : ¬ (inject_Z (now - startTime) / inject_Z 1000 == 0)%Q).
      { intros Hzero. apply Hms. apply inject_Z_injective.
        change (inject_Z 0) with 0%Q.
        rewrite <- (Qmult_div_r (inject_Z (now - startTime)) (inject_Z 1000))
          by apply thousand_nonzero.
        rewrite Hzero. apply Qmult_0_r. }
      destruct (Q_dec (inject_Z (now - startTime) / inject_Z 1000) 0)
        as [[Hneg|Hpos]|Hzero]; [| |done].
      - apply round64_neg in Hneg. lra.
      - apply round64_pos in Hpos. lra. }
    rewrite (div_Num (inject_Z 0)) by done.
    rewrite round64_zero by (unfold Qdiv; by rewrite Qmult_0_l). done.
Qed.

(** While bytes remain the estimate is at least one second; when none
    remain it is not positive. *)
Lemma eta64_sign (elapsedMs moved total : Z) :
  (0 < elapsedMs)%Z → (0 < moved)%Z →
  ((moved < total)%Z → (1 <= eta64 elapsedMs moved total)%Z)
  ∧ ((total <= moved)%Z → (eta64 elapsedMs moved total <= 0)%Z).
Proof.
  intros Helapsed Hmoved.
  destruct (rate_positive _ _ Helapsed Hmoved) as [_ Hbps].
  unfold eta64.
  set (bps := round64 (inject_Z moved / round64 (inject_Z elapsedMs / 1000)))
    in *.
  split; intros Hrest.
  - assert (Hpos : (0 < round64 (inject_Z (total - moved) / bps))%Q).
    { apply round64_pos, Qdiv_pos; [apply inject_Z_pos; lia|done]. }
    pose proof (Qle_ceiling (round64 (inject_Z (total - moved) / bps))) as Hc.
    assert (Hz : (inject_Z 0 < inject_Z
                    (Qceiling (round64 (inject_Z (total - moved) / bps))))%Q)
      by (change (inject_Z 0) with 0%Q; lra).
    rewrite <- Zlt_Qlt in Hz. lia.
  - assert (Hle : (inject_Z (total - moved) / bps <= 0)%Q).
    { unfold Qdiv. rewrite <- (Qmult_0_l (/ bps)).
      apply Qmult_le_compat_r.
      - change 0%Q with (inject_Z 0). rewrite <- Zle_Qle. lia.
      - by apply Qinv_le_0_compat, Qlt_le_weak. }
    apply round64_mono, Qceiling_resp_le in Hle.
    by rewrite (round64_zero 0) in Hle.
Qed.

(** Three roundings move a positive quotient that is below [2 ^ 50] by at
    most one half. *)
Lemma three_roundings (e m r : Q) :
  (0 < e)%Q → (0 < m)%Q → (0 < r)%Q →
  let exact := (r / (m / (e / 1000)))%Q in
  let rounded := round64 (r / round64 (m / round64 (e / 1000))) in
  (exact <= inject_Z (2 ^ 50))%Q →
  (exact - (1 # 2) <= rounded)%Q ∧ (rounded <= exact + (1 # 2))%Q.
Proof.
  intros He Hm Hr exact rounded Hbound.
  assert (Hx1 : (0 < e / 1000)%Q) by by apply Qdiv_pos.
  pose proof (round64_pos _ Hx1) as He1.
  destruct (round64_error _ Hx1) as [He1l He1h].
  assert (Hx2 : (0 < m / round64 (e / 1000))%Q) by by apply Qdiv_pos.
  pose proof (round64_pos _ Hx2) as Hb.
  destruct (round64_error _ Hx2) as [Hbl Hbh].
  assert (Hx3 : (0 < r / round64 (m / round64 (e / 1000)))%Q)
    by by apply Qdiv_pos.
  destruct (round64_error _ Hx3) as [Hql Hqh].
  fold rounded in Hql, Hqh.
  pose proof (Qdiv_mult m _ He1) as H2.
  pose proof (Qdiv_mult r _ Hb) as H3.
  assert (Hy : (0 < m / (e / 1000))%Q) by by apply Qdiv_pos.
  pose proof (Qdiv_mult r _ Hy) as H4. fold exact in H4.
  pose proof (Qdiv_mult m _ Hx1) as H5.
  assert (Hexact : (0 < exact)%Q) by by apply Qdiv_pos.
  revert He1 He1l He1h Hx2 Hb Hbl Hbh Hx3 Hql Hqh H2 H3 H4 H5 Hy Hx1
         Hexact Hbound.
  generalize rounded. clear rounded.
  generalize exact. clear exact.
  generalize (r / round64 (m / round64 (e / 1000)))%Q.
  generalize (round64 (m / round64 (e / 1000))).
  generalize (m / round64 (e / 1000))%Q.
  generalize (round64 (e / 1000)).
  generalize (m / (e / 1000))%Q.
  generalize (e / 1000)%Q.
  change (pow2 (-53)) with (1 # 9007199254740992)%Q.
  change (inject_Z (2 ^ 50)) with 1125899906842624%Q.
  intros x1 y e1 x2 b x3 exact rounded.
  intros He1 He1l He1h Hx2 Hb Hbl Hbh Hx3 Hql Hqh H2 H3 H4 H5 Hy Hx1
         Hexact Hbound.
  set (u := (1 # 9007199254740992)%Q) in *.
  (* b * e1 lies within m (1 - u) and m (1 + u) *)
  assert (Hbe1 : (m * (1 - u) <= b * e1)%Q) by nra.
  assert (Hbe2 : (b * e1 <= m * (1 + u))%Q) by nra.
  (* r * e1 = x3 * (b * e1), and exact * m = r * x1 *)
  assert (Hre : (r * e1 == x3 * (b * e1))%Q) by nra.
  assert (Hqm : (exact * m == r * x1)%Q) by nra.
  (* x3 and exact differ by the factors of two roundings *)
  assert (Hup : (x3 * (1 - u) <= exact * (1 + u))%Q).
  { apply (Qmult_le_r _ _ m Hm). nra. }
  assert (Hdown : (exact * (1 - u) <= x3 * (1 + u))%Q).
  { apply (Qmult_le_r _ _ m Hm). nra. }
  clear - Hup Hdown Hql Hqh Hexact Hbound. subst u. split; lra.
Qed.

(** The estimate as computed is within one second of the exact value of
    the formula, for estimates below [2 ^ 50] seconds. *)
Lemma eta64_close (elapsedMs moved total : Z) :
  (0 < elapsedMs)%Z → (0 < moved)%Z → (moved < total)%Z →
  (etaExact elapsedMs moved total <= 2 ^ 50)%Z →
  (etaExact elapsedMs moved total - 1 <= eta64 elapsedMs moved total)%Z
  ∧ (eta64 elapsedMs moved total <= etaExact elapsedMs moved total + 1)%Z.
Proof.
  intros Helapsed Hmoved Hrest Hbound. unfold etaExact, eta64 in *.
  set (exact := (inject_Z (total - moved)
                 / (inject_Z moved / (inject_Z elapsedMs / 1000)))%Q) in *.
  set (rounded := round64 (inject_Z (total - moved)
                    / round64 (inject_Z moved
                               / round64 (inject_Z elapsedMs / 1000)))).
  pose proof (Qle_ceiling exact) as Hc1.
  pose proof (Qceiling_lt exact) as Hc2.
  pose proof (Qle_ceiling rounded) as Hr1.
  pose proof (Qceiling_lt rounded) as Hr2.
  destruct (three_roundings (inject_Z elapsedMs) (inject_Z moved)
              (inject_Z (total - moved))) as [Hlow Hhigh];
    [by apply inject_Z_pos | by apply inject_Z_pos | apply inject_Z_pos; lia
     | |].
  { eapply Qle_trans; [exact Hc1|]. by rewrite <- Zle_Qle. }
  fold exact in Hlow, Hhigh. fold rounded in Hlow, Hhigh.
  rewrite inject_Z_sub in Hc2, Hr2. change (inject_Z 1) with 1%Q in *.
  assert (Hboth : (inject_Z (Qceiling exact - 2) < inject_Z (Qceiling rounded))%Q
                  ∧ (inject_Z (Qceiling rounded)
                     < inject_Z (Qceiling exact + 2))%Q).
  { rewrite inject_Z_sub, inject_Z_plus. change (inject_Z 2) with 2%Q.
    clearbody exact rounded. clear Hbound.
    revert Hc1 Hc2 Hr1 Hr2.
    generalize (inject_Z (Qceiling exact)), (inject_Z (Qceiling rounded)).
    intros ce cr Hc1 Hc2 Hr1 Hr2. split; lra. }
  destruct Hboth as [H1 H2]. rewrite <- Zlt_Qlt in H1, H2. lia.
Qed.

(** What the page shows for an estimate in whole seconds. *)
Lemma etaText_positive (seconds : Z) :
  (0 < seconds)%Z → etaText (ofZ seconds) = SecondsRemaining (ofZ seconds).
Proof.
  intros Hpos. unfold etaText.
  replace (gtb (ofZ seconds) (ofZ 0)) with true; [done|].
  symmetry. by apply gtb_positive, inject_Z_pos.
Qed.

Lemma etaText_not_positive (seconds : Z) :
  (seconds <= 0)%Z → etaText (ofZ seconds) = Calculating.
Proof.
  intros Hle. unfold etaText.
  replace (gtb (ofZ seconds) (ofZ 0)) with false; [done|].
  symmetry. apply gtb_not_positive.
  change 0%Q with (inject_Z 0). by rewrite <- Zle_Qle.
Qed.

(** C9 as stated fails: with 3 of 8 bytes received 1800 ms after the
    start, the exact value of [ceil(remainingBytes / (bytesMoved /
    elapsedSeconds))] is [ceil(5 / (3 / 1.8)) = 3], and the code sets 4:
    in binary64 [1800 / 1000] is a little above 1.8, [3 / 1.8] comes out a
    little below 5/3, and [5 / (3 / 1.8)] a little above 3. *)
Lemma eta_differs_from_exact_ceiling :
  estimatedTime
    (renders initialUI
       (handleDataChannelMessage 2800 (Chunk [Byte.x01; Byte.x02; Byte.x03])
          (mkRefs true (Some Open) [] 0 8 "a.bin" "" 1000)).2)
  = ofZ 4
  ∧ etaExact 1800 3 8 = 3%Z.
Proof. by vm_compute. Qed.

(** C9, amended. With the clock started ([startTime > 0], as after a
    [file-info] frame or at the start of [sendFile]), after a chunk, on
    the receiver and on the sender alike:

    - once at least one byte has moved and time has elapsed, the estimated
      time is [ceil(remainingBytes / (bytesMoved / elapsedSeconds))] whole
      seconds as JavaScript evaluates it: [elapsedSeconds] is the elapsed
      milliseconds over 1000, and each of the three quotients is rounded
      to binary64 ([eta64]); while bytes remain the value is at least 1
      and the page shows it as seconds remaining; when none remain the
      page shows "Calculating...";
    - as long as no byte has moved or no time has elapsed, the value set
      is 0, which the page shows as "Calculating...", like the initial
      value.

    The value computed is within one second of the exact value of the
    formula ([etaExact]) for estimates below [2 ^ 50] seconds. *)
Theorem eta_after_chunk (ui : UI) (startTime now : Z) :
  (0 < startTime)%Z →
  let elapsedMs := (now - startTime)%Z in
  let law (moved total : Z) (shown : num) : Prop :=
    ((0 < moved)%Z → (0 < elapsedMs)%Z →
       shown = ofZ (eta64 elapsedMs moved total)
       ∧ ((moved < total)%Z →
          (1 <= eta64 elapsedMs moved total)%Z
          ∧ etaText shown = SecondsRemaining shown)
       ∧ ((total <= moved)%Z → etaText shown = Calculating))
    ∧ (moved = 0%Z ∨ elapsedMs = 0%Z →
       shown = ofZ 0 ∧ etaText shown = Calculating) in
  (∀ (data : list Byte.byte) (r : Refs),
     startTimeRef r = startTime →
     let step := handleDataChannelMessage now (Chunk data) r in
     law (receivedSizeRef step.1) (totalSizeRef r)
         (estimatedTime (renders ui step.2)))
  ∧ (∀ (file : File) (offset : N),
       law (Z.of_N (nextOffset file offset)) (Z.of_N (file_size file))
           (estimatedTime (renders ui (onload file startTime now offset))))
  ∧ etaText (estimatedTime initialUI) = Calculating
  ∧ (∀ moved total,
       (0 < moved)%Z → (0 < elapsedMs)%Z → (moved < total)%Z →
       (etaExact elapsedMs moved total <= 2 ^ 50)%Z →
       (etaExact elapsedMs moved total - 1 <= eta64 elapsedMs moved total)%Z
       ∧ (eta64 elapsedMs moved total
          <= etaExact elapsedMs moved total + 1)%Z).
Proof.
  intros Hstart elapsedMs law.
  assert (Hlaw : ∀ effects moved total,
    (∀ t, estimate startTime now moved total = [SetEstimatedTime t] →
          estimatedTime (renders ui effects) = t) →
    law moved total (estimatedTime (renders ui effects))).
  { intros effects moved total Hset. subst law elapsedMs. split.
    - intros Hmoved Helapsed.
      rewrite (Hset _ (estimate_value _ _ _ total Hstart Hmoved Helapsed)).
      destruct (eta64_sign (now - startTime) moved total Helapsed Hmoved)
        as [Hrest Hdone].
      split_and!; [done| |].
      + intros Hlt. split; [by apply Hrest|].
        apply etaText_positive. specialize (Hrest Hlt). lia.
      + intros Hge. by apply etaText_not_positive, Hdone.
    - intros Hnone.
      by rewrite (Hset _ (estimate_calculating _ _ _ total Hstart Hnone)). }
  split_and!.
  - intros data r Hr step. subst step.
    apply Hlaw. intros t Ht.
    cbn [handleDataChannelMessage fst snd receivedSizeRef] in Ht |- *.
    rewrite Hr, Ht. reflexivity.
  - intros file offset.
    apply Hlaw. intros t Ht. unfold onload. rewrite Ht. reflexivity.
  - reflexivity.
  - intros moved total Hmoved Helapsed Hrest Hbound.
    by apply eta64_close.
Qed.

Lemma eta_after_chunk_witness :
  (0 < 1000)%Z
  ∧ estimatedTime
      (renders initialUI
         (handleDataChannelMessage 2800 (Chunk [Byte.x01; Byte.x02; Byte.x03])
            (mkRefs true (Some Open) [] 0 8 "a.bin" "" 1000)).2)
    = ofZ (eta64 1800 3 8).
Proof.
  split; [reflexivity|].
  apply (proj1 (proj1 (eta_after_chunk initialUI 1000 2800 eq_refl)
                  [Byte.x01; Byte.x02; Byte.x03]
                  (mkRefs true (Some Open) [] 0 8 "a.bin" "" 1000)
                  eq_refl));
    reflexivity.
Defined.

(** ** Progress *)

(** C4 fails on the empty file, on both sides: the only progress value
    ever set is [0 / 0 * 100], which is [NaN], so the progress shown when
    the completion frame is sent, or received, is not 100. *)
Lemma empty_file_progress_is_nan :
  let sending :=
    (sendFile 1 (λ k, Z.of_nat k + 2)%Z (fileOf "empty.txt" "text/plain" [])
              (mkRefs true (Some Open) [] 0 0 "" "" 0)).2 in
  let receiving :=
    (receive (λ k, Z.of_nat k + 5)%Z 0 (sent sending) initialRefs).2 in
  sent sending = [FileInfo "empty.txt" 0 "text/plain"; Chunk []; FileComplete]
  ∧ progressReports sending = [NaN]
  ∧ progress (renders initialUI sending) = NaN
  ∧ progressReports receiving = [NaN]
  ∧ progress (renders initialUI receiving) = NaN.
Proof. vm_compute. by split_and!. Qed.

Lemma percent_Num (moved total : Z) :
  (0 < total)%Z →
  percent moved total
  = Num (round64 (round64 (inject_Z moved / inject_Z total) * inject_Z 100)).
Proof.
  intros Htotal. unfold percent, ofZ.
  rewrite div_Num; [done|]. by apply Qpos_nonzero, inject_Z_pos.
Qed.

(** A finished transfer of a non-empty file shows exactly 100: a number
    divided by itself is 1 without rounding, and so is 1 times 100. *)
Lemma percent_full (total : Z) :
  (0 < total)%Z → percent total total = Num 100.
Proof.
  intros Htotal. rewrite percent_Num by done. f_equal.
  rewrite (round64_proper (inject_Z total / inject_Z total) 1).
  - by vm_compute.
  - unfold Qdiv.
    by rewrite Qmult_inv_r by (by apply Qpos_nonzero, inject_Z_pos).
Qed.

(** More bytes moved never show as less progress: rounding is monotone. *)
Lemma percent_monotone (moved moved' total : Z) :
  (0 < total)%Z → (moved <= moved')%Z →
  le (percent moved total) (percent moved' total).
Proof.
  intros Htotal Hle. rewrite !percent_Num by done. unfold le.
  apply round64_mono.
  apply Qmult_le_compat_r; [|done].
  apply round64_mono.
  unfold Qdiv. apply Qmult_le_compat_r.
  - by rewrite <- Zle_Qle.
  - apply Qinv_le_0_compat, Qlt_le_weak. by apply inject_Z_pos.
Qed.

Lemma progressReports_app e1 e2 :
  progressReports (e1 ++ e2) = progressReports e1 ++ progressReports e2.
Proof. apply omap_app. Qed.

Lemma progressReports_onload file startTime now offset :
  progressReports (onload file startTime now offset)
  = [percent (Z.of_N (nextOffset file offset)) (Z.of_N (file_size file))].
Proof.
  unfold onload.
  change (progressReports (Send ?f :: SetProgress ?p :: ?l))
    with (p :: progressReports l).
  by rewrite progressReports_estimate.
Qed.

(** The sender's progress from [offset] on, for a file that is not empty:
    it never decreases and ends at exactly 100. *)
Lemma sender_progress clock file startTime k offset :
  (0 < file_size file)%N → (offset <= file_size file)%N →
  ∃ later,
    progressReports (readSlice clock file startTime k offset)
    = percent (Z.of_N (nextOffset file offset)) (Z.of_N (file_size file))
        :: later
    ∧ nondecreasing (progressReports (readSlice clock file startTime k offset))
    ∧ last (progressReports (readSlice clock file startTime k offset))
      = Some (Num 100).
Proof.
  funelim (readSlice clock file startTime k offset); intros Hsize Hle;
    rewrite progressReports_app, progressReports_onload.
  - pose proof (proj1 (N.ltb_lt _ _) continue) as Hcont.
    match goal with
    | IH : _ → _ → ∃ later, _ |- _ =>
        destruct IH as (later & Hreports & Hmono & Hlast); [done|lia|]
    end.
    rewrite Hreports in *. eexists. split_and!; [done| |done].
    cbn [app nondecreasing]. split; [|done].
    apply percent_monotone; [lia|].
    rewrite (nextOffset_min file (nextOffset file offset)) by lia. lia.
  - match goal with
    | e : (_ <? _)%N = false |- _ =>
        pose proof (proj1 (N.ltb_ge _ _) e) as Hstop
    end.
    assert (Hdone : nextOffset file offset = file_size file)
      by (rewrite (nextOffset_min _ _ Hle) in *; lia).
    rewrite Hdone. eexists. split_and!; [done|done|].
    cbn. rewrite percent_full; [done|lia].
Qed.

(** The receiver's progress over a run of binary frames, when the
    announced size is positive: non-decreasing from the value the bytes
    received so far stand for, and ending at the value for all of them. *)
Lemma receiver_progress clock (chunks : list (list Byte.byte)) : ∀ k r,
  (0 < totalSizeRef r)%Z →
  let reports :=
    progressReports
      (receive clock k ((Chunk <$> chunks) ++ [FileComplete]) r).2 in
  nondecreasing (percent (receivedSizeRef r) (totalSizeRef r) :: reports)
  ∧ last (percent (receivedSizeRef r) (totalSizeRef r) :: reports)
    = Some (percent (receivedSizeRef r + byteLength chunks) (totalSizeRef r)).
Proof.
  induction chunks as [|c chunks IH]; intros k r Htotal.
  - cbn. by rewrite Z.add_0_r.
  - cbn [fmap list_fmap app receive snd].
    set (r1 := (handleDataChannelMessage (clock k) (Chunk c) r).1).
    destruct (IH (S k) r1) as [Hmono Hlast]; [done|].
    rewrite progressReports_app.
    cbn [handleDataChannelMessage snd].
    change (progressReports (SetProgress ?p :: ?l))
      with (p :: progressReports l).
    rewrite progressReports_estimate. cbn [app].
    subst r1. cbn [handleDataChannelMessage fst receivedSizeRef totalSizeRef]
      in Hmono, Hlast |- *.
    split.
    + cbn [nondecreasing]. split; [|done].
      apply percent_monotone; [done|lia].
    + rewrite last_cons_cons, Hlast. do 2 f_equal. simpl. lia.
Qed.

(** For a file that is not empty, progress on both sides never decreases
    during the transfer and is exactly 100 when the completion frame is
    sent and when it is received. *)
Lemma progress_of_nonempty_file (t0 : Z) (senderClock receiverClock : nat → Z)
    (file : File) (s r : Refs) :
  dataChannelRef s = Some Open →
  (0 < file_size file)%N →
  let sending := (sendFile t0 senderClock file s).2 in
  let receiving := (receive receiverClock 0 (sent sending) r).2 in
  nondecreasing (progressReports sending)
  ∧ last (progressReports sending) = Some (Num 100)
  ∧ nondecreasing (progressReports receiving)
  ∧ last (progressReports receiving) = Some (Num 100).
Proof.
  intros Hopen Hsize sending receiving.
  destruct (sender_progress senderClock file t0 0 0 Hsize) as
    (later & _ & Hmono & Hlast); [lia|].
  destruct (sendFile_frames t0 senderClock file s Hopen)
    as (chunks & Hsent & Hcat & _).
  subst receiving sending. rewrite Hsent.
  rewrite (sendFile_open _ _ _ _ Hopen).
  change (progressReports (Send ?f :: ?l)) with (progressReports l).
  split_and!; [done|done| |].
  all: cbn [receive snd]; rewrite progressReports_app;
    set (r1 := (handleDataChannelMessage (receiverClock 0%nat)
                  (FileInfo (file_name file) (Z.of_N (file_size file))
                            (file_type file)) r).1);
    destruct (receiver_progress receiverClock chunks 1%nat r1) as [Hm Hl];
      [cbn; lia|];
    change (progressReports (handleDataChannelMessage _ (FileInfo _ _ _) _).2)
      with (@nil num); cbn [app].
  - revert Hm. destruct (progressReports (receive _ _ _ _).2) as [|p l];
      [done|].
    intros Hm. exact (proj2 Hm).
  - assert (Hall : byteLength chunks = Z.of_N (file_size file)).
    { rewrite byteLength_concat, Hcat. unfold file_bytes.
      rewrite length_fmap, length_offsets. lia. }
    revert Hl. subst r1.
    cbn [handleDataChannelMessage fst receivedSizeRef totalSizeRef].
    rewrite Z.add_0_l, Hall, percent_full by lia.
    destruct (progressReports (receive _ _ _ _).2) as [|p l] eqn:Hreports.
    + (* the completion frame is preceded by at least one chunk *)
      intros _. exfalso.
      destruct chunks as [|c chunks]; [|done].
      simpl in Hall. lia.
    + by rewrite last_cons_cons.
Qed.

(** [ceilDiv n d] is the least count of [d]-byte frames that hold [n]
    bytes. *)
Lemma ceilDiv_least (n d : N) :
  (0 < d)%N →
  (n <= ceilDiv n d * d)%N
  ∧ ∀ count, (n <= count * d)%N → (ceilDiv n d <= count)%N.
Proof.
  intros Hd. unfold ceilDiv.
  assert (Hne : d ≠ 0%N) by lia.
  pose proof (N.mul_succ_div_gt (n + d - 1) d Hne) as Hgt.
  pose proof (N.Div0.mul_div_le (n + d - 1) d) as Hle.
  split; [lia|].
  intros count Hcount.
  apply N.lt_succ_r, N.Div0.div_lt_upper_bound. nia.
Qed.

(** At the last chunk nothing remains: the estimate is 0 seconds, which
    the page shows as "Calculating...", next to a progress of 100. *)
Example eta_at_last_chunk :
  let step :=
    handleDataChannelMessage 3000 (Chunk [Byte.x2a])
      (mkRefs true (Some Open) [[Byte.x01]] 1 2 "a.bin" "" 1000) in
  estimatedTime (renders initialUI step.2) = ofZ 0
  ∧ etaText (estimatedTime (renders initialUI step.2)) = Calculating
  ∧ progress (renders initialUI step.2) = Num 100.
Proof. vm_compute. by split_and!. Qed.

End TransferFacts.

(* ===================================================================== *)
(** * More properties of the signaling server *)
(* ===================================================================== *)

Module RelayMore.

Import Relay RelayFacts.

(** ** The registry never keeps an empty room *)

Lemma joinRoom_lookup id roomId isSender (rooms : gmap string Room) :
  (joinRoom id roomId isSender rooms).1 !! roomId
  = Some (let room := default (mkRoom None None) (rooms !! roomId) in
          if isSender then mkRoom (Some id) (receiver room)
          else mkRoom (sender room) (Some id)).
Proof.
  destruct (rooms !! roomId) as [room|] eqn:Hroom.
  - rewrite (joinRoom_present _ _ _ _ _ Hroom).
    destruct isSender; simpl; by rewrite lookup_insert_eq.
  - rewrite (joinRoom_fresh _ _ _ _ Hroom). rewrite lookup_insert_eq.
    by destruct isSender.
Qed.

Lemma joinRoom_other id roomId isSender (rooms : gmap string Room) other :
  other ≠ roomId →
  (joinRoom id roomId isSender rooms).1 !! other = rooms !! other.
Proof.
  intros Hne. destruct (rooms !! roomId) as [room|] eqn:Hroom.
  - rewrite (joinRoom_present _ _ _ _ _ Hroom).
    destruct isSender; simpl; by rewrite lookup_insert_ne.
  - rewrite (joinRoom_fresh _ _ _ _ Hroom). by rewrite lookup_insert_ne.
Qed.

Lemma leaveRoom_inhabited id room room' :
  leaveRoom id room = Some room' → occupants room ≠ [] →
  occupants room' ≠ [].
Proof.
  unfold leaveRoom. case_decide as Hocc; [|by intros [= <-]].
  case_decide as Hempty; [done|]. intros [= <-] _.
  unfold occupants. simpl in *.
  destruct (vacate id (sender room)), (vacate id (receiver room));
    simpl; try done. by destruct Hempty.
Qed.

Lemma handle_inhabited id m (rooms : gmap string Room) :
  id ≠ "" → registry_inhabited rooms →
  registry_inhabited (handle id m rooms).1.
Proof.
  intros Hid Hok.
  assert (Hwf : registry_wf rooms).
  { intros k room Hroom. by destruct (Hok k room Hroom). }
  pose proof (handle_wf id m rooms Hid Hwf) as Hwf'.
  intros k room' Hroom'. split; [by apply (Hwf' k room')|].
  destruct m as [roomId isSender| | | |]; cbn [handle fst] in Hroom';
    try by destruct (Hok k room' Hroom').
  - destruct (decide (k = roomId)) as [->|Hne].
    + rewrite joinRoom_lookup in Hroom'. injection Hroom' as <-.
      by destruct isSender, (default _ _) as [[?|] [?|]].
    + rewrite joinRoom_other in Hroom' by done.
      by destruct (Hok k room' Hroom').
  - rewrite (onDisconnect_registry id rooms Hwf) in Hroom'.
    destruct (rooms !! k) as [room|] eqn:Hroom; [|done]. simpl in Hroom'.
    apply (leaveRoom_inhabited id room room' Hroom').
    by destruct (Hok k room Hroom).
Qed.

(** Whatever the connections do, every room the server keeps has at least
    one occupant: a join fills a slot of the room it creates, and a
    disconnection deletes the rooms it empties. Connections have non-empty
    ids, and no slot ever holds the empty string. *)
Theorem registry_stays_inhabited (events : list (ConnId * ClientMsg))
    (rooms : gmap string Room) :
  Forall (λ event, event.1 ≠ "") events →
  registry_inhabited rooms →
  registry_inhabited (run events rooms).1
  ∧ ∀ roomId room, (run events rooms).1 !! roomId = Some room →
                   sender room ≠ None ∨ receiver room ≠ None.
Proof.
  intros Hids Hok.
  assert (Hrun : registry_inhabited (run events rooms).1).
  { revert rooms Hok.
    induction Hids as [|[id m] events Hid _ IH]; intros rooms Hok; [done|].
    cbn [run]. pose proof (handle_inhabited id m rooms Hid Hok) as Hok1.
    destruct (handle id m rooms) as [rooms1 out1].
    specialize (IH rooms1 Hok1). by destruct (run events rooms1). }
  split; [done|].
  intros roomId room Hroom. destruct (Hrun roomId room Hroom) as [_ Hocc].
  unfold occupants in Hocc.
  destruct (sender room), (receiver room); simpl in *; auto.
Qed.

Lemma registry_stays_inhabited_witness :
  Forall (λ event : ConnId * ClientMsg, event.1 ≠ "")
         [("A1", JoinRoom "ab12cd34" true); ("B1", JoinRoom "ab12cd34" false);
          ("A1", Disconnect)]
  ∧ registry_inhabited
      (run [("A1", JoinRoom "ab12cd34" true);
            ("B1", JoinRoom "ab12cd34" false); ("A1", Disconnect)] ∅).1.
Proof.
  assert (H : Forall (λ event : ConnId * ClientMsg, event.1 ≠ "")
                [("A1", JoinRoom "ab12cd34" true);
                 ("B1", JoinRoom "ab12cd34" false); ("A1", Disconnect)]).
  { repeat constructor; discriminate. }
  split; [exact H|].
  exact (proj1 (registry_stays_inhabited _ ∅ H (map_Forall_empty _))).
Defined.

(** ** Disconnections that find nothing to do *)

Lemma disconnect_loop_absent id (entries : list (string * Room)) acc :
  (∀ entry, entry ∈ entries → ¬ occupies id entry.2) →
  foldl (disconnectRoom id) acc entries = acc.
Proof.
  revert acc. induction entries as [|[k room] rest IH]; intros acc Habs;
    [done|].
  cbn [foldl].
  assert (Hstep : disconnectRoom id acc (k, room) = acc).
  { destruct acc as [rooms out]. unfold disconnectRoom.
    assert (Hno : ¬ occupies id room) by (apply (Habs (k, room)); by left).
    unfold occupies in Hno.
    replace (bool_decide (sender room = Some id)
             || bool_decide (receiver room = Some id)) with false; [done|].
    symmetry. apply orb_false_iff. rewrite !bool_decide_eq_false. tauto. }
  rewrite Hstep. apply IH. intros entry Hin. apply Habs. by right.
Qed.

Lemma onDisconnect_absent id (rooms : gmap string Room) :
  absent id rooms → onDisconnect id rooms = (rooms, []).
Proof.
  intros Habs. unfold onDisconnect, disconnectLoop.
  apply disconnect_loop_absent.
  intros [k room] Hin%elem_of_map_to_list. by apply (Habs k room).
Qed.

Lemma onDisconnect_leaves_absent id (rooms : gmap string Room) :
  registry_wf rooms → absent id (onDisconnect id rooms).1.
Proof.
  intros Hwf k room'. rewrite (onDisconnect_registry id rooms Hwf).
  destruct (rooms !! k) as [room|]; [|done]. simpl.
  apply leaveRoom_not_occupied.
Qed.

(** The disconnection of a connection that holds no slot changes nothing
    and notifies nobody; in particular a second disconnection of the same
    connection, after the first has taken it out of every room, is
    without effect. *)
Theorem disconnect_is_idempotent (A : ConnId) (rooms : gmap string Room) :
  registry_wf rooms →
  (absent A rooms → handle A Disconnect rooms = (rooms, []))
  ∧ handle A Disconnect (handle A Disconnect rooms).1
    = ((handle A Disconnect rooms).1, []).
Proof.
  intros Hwf. cbn [handle]. split.
  - apply onDisconnect_absent.
  - apply onDisconnect_absent. by apply onDisconnect_leaves_absent.
Qed.

Lemma disconnect_is_idempotent_witness :
  registry_wf {[ "ab12cd34" := mkRoom (Some "A1") (Some "B1") ]}
  ∧ handle "A1" Disconnect
      (handle "A1" Disconnect
              {[ "ab12cd34" := mkRoom (Some "A1") (Some "B1") ]}).1
    = ((handle "A1" Disconnect
               {[ "ab12cd34" := mkRoom (Some "A1") (Some "B1") ]}).1, []).
Proof.
  assert (Hwf : registry_wf {[ "ab12cd34" := mkRoom (Some "A1") (Some "B1") ]}).
  { apply map_Forall_singleton. split; discriminate. }
  split; [exact Hwf|].
  exact (proj2 (disconnect_is_idempotent "A1" _ Hwf)).
Defined.

(** ** Joining and leaving *)

Lemma vacate_other id slot : slot ≠ Some id → vacate id slot = slot.
Proof. intros Hne. unfold vacate. by rewrite decide_False. Qed.

Lemma vacate_self id : vacate id (Some id) = None.
Proof. unfold vacate. by rewrite decide_True. Qed.

Lemma leaveRoom_stranger id room :
  ¬ occupies id room → leaveRoom id room = Some room.
Proof. intros Hno. unfold leaveRoom. by rewrite decide_False. Qed.

(** A connection that joins a free slot and then disconnects leaves the
    registry exactly as it found it: the room it created is deleted, the
    room it shared is given back with the slot empty. The connection holds
    no other slot, and the registry keeps no empty room. *)
Theorem join_then_disconnect (A : ConnId) (code : string) (isSender : bool)
    (rooms : gmap string Room) :
  A ≠ "" →
  registry_inhabited rooms →
  absent A rooms →
  (∀ room, rooms !! code = Some room →
           (if isSender then sender room else receiver room) = None) →
  (handle A Disconnect (handle A (JoinRoom code isSender) rooms).1).1 = rooms.
Proof.
  intros HA Hok Habs Hfree. cbn [handle].
  assert (Hwf : registry_wf rooms).
  { intros k room Hroom. by destruct (Hok k room Hroom). }
  apply map_eq. intros k.
  rewrite onDisconnect_registry by by apply joinRoom_wf.
  destruct (decide (k = code)) as [->|Hne].
  - rewrite joinRoom_lookup. simpl.
    destruct (rooms !! code) as [room|] eqn:Hroom; simpl.
    + specialize (Hfree room eq_refl).
      destruct (Hok code room Hroom) as [_ Hocc].
      assert (Hno : ¬ occupies A room) by by apply (Habs code room).
      unfold occupies in Hno. unfold leaveRoom, occupies, occupants in *.
      destruct room as [s r]; simpl in *.
      destruct isSender; simpl in *; subst.
      * rewrite decide_True by by left. rewrite vacate_self.
        rewrite vacate_other by tauto.
        rewrite decide_False; [done|]. intros [_ ->]. by apply Hocc.
      * rewrite decide_True by by right. rewrite vacate_self.
        rewrite vacate_other by tauto.
        rewrite decide_False; [done|]. intros [-> _]. by apply Hocc.
    + unfold leaveRoom, occupies.
      destruct isSender; simpl.
      * rewrite decide_True by by left. rewrite vacate_self.
        by rewrite decide_True.
      * rewrite decide_True by by right. rewrite vacate_self.
        by rewrite decide_True.
  - rewrite joinRoom_other by done.
    destruct (rooms !! k) as [room|] eqn:Hroom; [|done]. simpl.
    apply leaveRoom_stranger. by apply (Habs k room).
Qed.

Lemma join_then_disconnect_witness :
  (handle "B1" Disconnect
     (handle "B1" (JoinRoom "ab12cd34" false)
             {[ "ab12cd34" := mkRoom (Some "A1") None ]}).1).1
  = {[ "ab12cd34" := mkRoom (Some "A1") None ]}.
Proof.
  apply (join_then_disconnect "B1" "ab12cd34" false
           {[ "ab12cd34" := mkRoom (Some "A1") None ]}).
  - discriminate.
  - apply map_Forall_singleton. repeat split; discriminate.
  - intros k room Hroom. apply lookup_singleton_Some in Hroom as [_ <-].
    intros [H|H]; discriminate H.
  - intros room Hroom. apply lookup_singleton_Some in Hroom as [_ <-].
    reflexivity.
Defined.

(** ** Who is told what *)

(** The two peers of a room may join in either order and the registry ends
    up the same, but only the order sender-then-receiver produces the
    [receiver-joined] notification that makes the sender start the
    negotiation: a sender that joins a room whose receiver is already
    there is told nothing, and neither is the receiver. *)
Theorem join_order (code : string) (A B : ConnId) (rooms : gmap string Room) :
  A ≠ "" → B ≠ "" →
  rooms !! code = None →
  let senderFirst :=
    run [(A, JoinRoom code true); (B, JoinRoom code false)] rooms in
  let receiverFirst :=
    run [(B, JoinRoom code false); (A, JoinRoom code true)] rooms in
  senderFirst.1 = receiverFirst.1
  ∧ senderFirst.1 !! code = Some (mkRoom (Some A) (Some B))
  ∧ senderFirst.2 = [mkEmit A ReceiverJoined]
  ∧ receiverFirst.2 = [].
Proof.
  intros HA HB Hfresh senderFirst receiverFirst.
  subst senderFirst receiverFirst. cbn [run handle].
  pose proof (joinRoom_fresh A code true rooms Hfresh) as HjA.
  pose proof (joinRoom_fresh B code false rooms Hfresh) as HjB.
  destruct (joinRoom A code true rooms) as [roomsA outA] eqn:HeqA.
  destruct (joinRoom B code false rooms) as [roomsB outB] eqn:HeqB.
  simpl in HjA, HjB. subst roomsA roomsB.
  assert (HoutA : outA = []).
  { revert HeqA. unfold joinRoom.
    rewrite bool_decide_eq_false_2 by (rewrite Hfresh; by intros [? ?]).
    rewrite lookup_insert_eq. by intros [= _ <-]. }
  assert (HoutB : outB = []).
  { revert HeqB. unfold joinRoom.
    rewrite bool_decide_eq_false_2 by (rewrite Hfresh; by intros [? ?]).
    rewrite lookup_insert_eq. simpl. by intros [= _ <-]. }
  subst outA outB.
  rewrite (joinRoom_present B code false _ (mkRoom (Some A) None))
    by apply lookup_insert_eq.
  rewrite (joinRoom_present A code true _ (mkRoom None (Some B)))
    by apply lookup_insert_eq.
  cbn [sender receiver fst snd app]. rewrite !insert_insert_eq.
  rewrite emitIfTruthy_Some by done.
  split_and!; try done. by rewrite lookup_insert_eq.
Qed.

Lemma join_order_witness :
  (run [("B1", JoinRoom "ab12cd34" false); ("A1", JoinRoom "ab12cd34" true)]
       ∅).2 = [].
Proof.
  apply (join_order "ab12cd34" "A1" "B1" ∅); [discriminate|discriminate|].
  reflexivity.
Defined.

(** A join to an occupied slot replaces the occupant. Replacing the sender
    tells nobody; replacing the receiver tells the sender, as a first join
    does. The replaced connection, sender or receiver, is not told, and
    when it disconnects later (holding no other slot) the room stays as it
    is and the peer is not notified. *)
Theorem join_replaces_occupant (code : string) (A A' B : ConnId)
    (rooms : gmap string Room) :
  A ≠ "" → A' ≠ "" → B ≠ "" → A ≠ A' → A ≠ B →
  rooms !! code = Some (mkRoom (Some A) (Some B)) →
  (∀ roomId room, roomId ≠ code → rooms !! roomId = Some room →
                  ¬ occupies A room) →
  let asSender := handle A' (JoinRoom code true) rooms in
  let asReceiver := handle A' (JoinRoom code false) rooms in
  asSender.1 !! code = Some (mkRoom (Some A') (Some B))
  ∧ asSender.2 = []
  ∧ handle A Disconnect asSender.1 = (asSender.1, [])
  ∧ asReceiver.1 !! code = Some (mkRoom (Some A) (Some A'))
  ∧ asReceiver.2 = [mkEmit A ReceiverJoined]
  ∧ (B ≠ A' →
     (∀ roomId room, roomId ≠ code → rooms !! roomId = Some room →
                     ¬ occupies B room) →
     handle B Disconnect asReceiver.1 = (asReceiver.1, [])).
Proof.
  intros HA HA' HB Hne HAB Hroom Helse asSender asReceiver.
  subst asSender asReceiver. cbn [handle].
  rewrite !(joinRoom_present _ _ _ _ _ Hroom). cbn [fst snd sender receiver].
  rewrite !lookup_insert_eq, emitIfTruthy_Some by done.
  assert (Hgone : ∀ (X : ConnId) (room' : Room),
            ¬ occupies X room' →
            (∀ roomId room, roomId ≠ code → rooms !! roomId = Some room →
                            ¬ occupies X room) →
            onDisconnect X (<[code := room']> rooms)
            = (<[code := room']> rooms, [])).
  { intros X room' Hout Hother. apply onDisconnect_absent. intros k room Hk.
    destruct (decide (k = code)) as [->|Hk'].
    - rewrite lookup_insert_eq in Hk. by injection Hk as <-.
    - rewrite lookup_insert_ne in Hk by done. by apply (Hother k room). }
  split_and!; try done.
  - apply Hgone; [|done]. intros [[= ?]|[= ?]]; congruence.
  - intros HBA' HBelse. apply Hgone; [|done].
    intros [[= ?]|[= ?]]; congruence.
Qed.

Lemma join_replaces_occupant_witness :
  handle "B1" Disconnect
    (handle "B2" (JoinRoom "ab12cd34" false)
            {[ "ab12cd34" := mkRoom (Some "A1") (Some "B1") ]}).1
  = ((handle "B2" (JoinRoom "ab12cd34" false)
             {[ "ab12cd34" := mkRoom (Some "A1") (Some "B1") ]}).1, []).
Proof.
  assert (Hone : ∀ (X : ConnId) (roomId : string) (room : Room),
            roomId ≠ "ab12cd34" →
            ({[ "ab12cd34" := mkRoom (Some "A1") (Some "B1") ]}
               : gmap string Room) !! roomId = Some room →
            ¬ occupies X room).
  { intros X k room Hk Hroom. apply lookup_singleton_Some in Hroom as [<- _].
    by destruct Hk. }
  apply (join_replaces_occupant "ab12cd34" "A1" "B2" "B1"
           {[ "ab12cd34" := mkRoom (Some "A1") (Some "B1") ]});
    try discriminate; try reflexivity; apply Hone.
Defined.

Lemma elem_of_emitIfTruthy e slot m :
  e ∈ emitIfTruthy slot m → slot = Some (target e).
Proof.
  unfold emitIfTruthy. destruct slot as [id|]; [|by intros ?%elem_of_nil].
  destruct (truthy (Some id)); [|by intros ?%elem_of_nil].
  by intros ->%list_elem_of_singleton.
Qed.

(** A message that names a room stays in it: it leaves every other room
    of the registry untouched, and whatever the server emits for it is
    addressed to an occupant of the room named. *)
Theorem messages_stay_in_their_room (id : ConnId) (m : ClientMsg)
    (roomId : string) (rooms : gmap string Room) :
  roomOf m = Some roomId →
  (∀ other, other ≠ roomId →
            (handle id m rooms).1 !! other = rooms !! other)
  ∧ (∀ e, e ∈ (handle id m rooms).2 →
          ∃ room, (handle id m rooms).1 !! roomId = Some room
                  ∧ target e ∈ occupants room).
Proof.
  intros Hroom.
  assert (Hocc : ∀ e slot msg room,
            e ∈ emitIfTruthy slot msg →
            slot = sender room ∨ slot = receiver room →
            target e ∈ occupants room).
  { intros e slot msg room Hin%elem_of_emitIfTruthy Hslot.
    unfold occupants. destruct room as [s r]; simpl in *.
    destruct Hslot as [<-|<-]; subst.
    - simpl. by left.
    - destruct s; simpl; [right|]; by left. }
  destruct m as [code isSender|code p|code p|code p|]; try done;
    injection Hroom as ->; cbn [handle fst snd].
  - split; [intros other Hne; by apply joinRoom_other|].
    intros e Hin. rewrite joinRoom_lookup. eexists; split; [done|].
    revert Hin. destruct (rooms !! roomId) as [room|] eqn:Hr.
    + rewrite (joinRoom_present _ _ _ _ _ Hr). destruct isSender; simpl.
      * by intros ?%elem_of_nil.
      * intros Hin. eapply Hocc; [exact Hin|]. by left.
    + unfold joinRoom.
      rewrite bool_decide_eq_false_2 by (rewrite Hr; by intros [? ?]).
      rewrite lookup_insert_eq. destruct isSender; simpl;
        by intros ?%elem_of_nil.
  - split; [done|]. intros e. unfold onOffer.
    destruct (rooms !! roomId) as [room|]; [|by intros ?%elem_of_nil].
    intros Hin. exists room. split; [done|]. eapply Hocc; [exact Hin|].
    by right.
  - split; [done|]. intros e. unfold onAnswer.
    destruct (rooms !! roomId) as [room|]; [|by intros ?%elem_of_nil].
    intros Hin. exists room. split; [done|]. eapply Hocc; [exact Hin|].
    by left.
  - split; [done|]. intros e. unfold onIceCandidate, otherPeer.
    destruct (rooms !! roomId) as [room|]; [|by intros ?%elem_of_nil].
    intros Hin. exists room. split; [done|]. eapply Hocc; [exact Hin|].
    case_bool_decide; auto.
Qed.

Lemma messages_stay_in_their_room_witness :
  (handle "B1" (JoinRoom "ab12cd34" false)
          {[ "zz99yy88" := mkRoom (Some "A1") None ]}).1 !! "zz99yy88"
  = ({[ "zz99yy88" := mkRoom (Some "A1") None ]} : gmap string Room)
      !! "zz99yy88".
Proof.
  apply (proj1 (messages_stay_in_their_room "B1" (JoinRoom "ab12cd34" false)
                  "ab12cd34" {[ "zz99yy88" := mkRoom (Some "A1") None ]}
                  eq_refl)).
  discriminate.
Defined.

(** The relay does not look at who sends: in a room with both peers, an
    offer goes to the receiver and an answer to the sender whoever emits
    it, a non-member or the addressee itself included, and an ICE
    candidate of anyone but the sender goes to the sender. *)
Theorem relay_ignores_originator (id : ConnId) (code : string)
    (S R : ConnId) (payload : Payload) (rooms : gmap string Room) :
  S ≠ "" → R ≠ "" →
  rooms !! code = Some (mkRoom (Some S) (Some R)) →
  handle id (Offer code payload) rooms = (rooms, [mkEmit R (OfferTo payload)])
  ∧ handle id (Answer code payload) rooms
    = (rooms, [mkEmit S (AnswerTo payload)])
  ∧ (id ≠ S → handle id (IceCandidate code payload) rooms
              = (rooms, [mkEmit S (IceCandidateTo payload)]))
  ∧ (id = S → handle id (IceCandidate code payload) rooms
              = (rooms, [mkEmit R (IceCandidateTo payload)])).
Proof.
  intros HS HR Hroom. cbn [handle].
  unfold onOffer, onAnswer, onIceCandidate, otherPeer. rewrite Hroom.
  cbn [sender receiver]. split_and!.
  - by rewrite emitIfTruthy_Some.
  - by rewrite emitIfTruthy_Some.
  - intros Hne. rewrite bool_decide_eq_false_2 by (intros [= ?]; congruence).
    by rewrite emitIfTruthy_Some.
  - intros ->. rewrite bool_decide_eq_true_2 by done.
    by rewrite emitIfTruthy_Some.
Qed.

Lemma relay_ignores_originator_witness :
  handle "X9" (Offer "ab12cd34" "sdp")
         {[ "ab12cd34" := mkRoom (Some "A1") (Some "B1") ]}
  = ({[ "ab12cd34" := mkRoom (Some "A1") (Some "B1") ]},
     [mkEmit "B1" (OfferTo "sdp")]).
Proof.
  apply (relay_ignores_originator "X9" "ab12cd34" "A1" "B1" "sdp"
           {[ "ab12cd34" := mkRoom (Some "A1") (Some "B1") ]});
    [discriminate|discriminate|reflexivity].
Defined.

End RelayMore.

(* ===================================================================== *)
(** * More properties of the hook *)
(* ===================================================================== *)

Module TransferMore.

Import JS JSFacts Transfer TransferFacts.

(** ** Framing *)



(** ** Streams of frames *)

Lemma receive_app clock frames1 frames2 : ∀ k r,
  receive clock k (frames1 ++ frames2) r
  = let first := receive clock k frames1 r in
    let second := receive clock (k + length frames1) frames2 first.1 in
    (second.1, first.2 ++ second.2).
Proof.
  induction frames1 as [|frame frames1 IH]; intros k r.
  - cbn [app receive length fst snd]. rewrite Nat.add_0_r.
    by destruct (receive clock k frames2 r).
  - cbn [app receive length]. rewrite IH. cbn [fst snd].
    replace (S k + length frames1)%nat with (k + S (length frames1))%nat by lia.
    by rewrite app_assoc.
Qed.

Lemma downloads_file_info now name size fileType r :
  downloads (handleDataChannelMessage now (FileInfo name size fileType) r).2
  = [].
Proof. done. Qed.

(** A whole transfer, received from any state at any position of the
    stream. *)
Lemma receive_transfer clock k name size fileType
    (chunks : list (list Byte.byte)) r :
  let result :=
    receive clock k
      (FileInfo name size fileType :: (Chunk <$> chunks) ++ [FileComplete]) r in
  downloads result.2 = [(name, fileType, concat chunks)]
  ∧ transferData result.1
    = (chunks, byteLength chunks, size, name, fileType).
Proof.
  cbn [receive].
  set (r1 := (handleDataChannelMessage (clock k)
                (FileInfo name size fileType) r).1).
  destruct (receive_chunks clock chunks (S k) r1)
    as (Hchunks & Hsize & Htotal & Hsaved).
  cbn [fst snd]. rewrite downloads_app, downloads_file_info, Hsaved.
  split; [done|].
  assert (Hname : ∀ frames k' r',
    (∀ frame, frame ∈ frames → ∀ n s t, frame ≠ FileInfo n s t) →
    fileNameRef (receive clock k' frames r').1 = fileNameRef r'
    ∧ fileTypeRef (receive clock k' frames r').1 = fileTypeRef r').
  { induction frames as [|frame frames IH]; intros k' r' Hno; [done|].
    cbn [receive fst].
    destruct (IH (S k') (handleDataChannelMessage (clock k') frame r').1)
      as [-> ->]; [intros f Hf; apply Hno; by right|].
    destruct frame; try done. exfalso. eapply (Hno (FileInfo _ _ _)); [by left|done]. }
  destruct (Hname ((Chunk <$> chunks) ++ [FileComplete]) (S k) r1)
    as [Hn Ht].
  { intros frame [Hin|Hin]%elem_of_app n s t.
    - apply list_elem_of_fmap in Hin as (c & -> & _). done.
    - apply list_elem_of_singleton in Hin as ->. done. }
  unfold transferData. by rewrite Hchunks, Hsize, Htotal, Hn, Ht.
Qed.

(** Every [file-complete] frame hands the user whatever is accumulated:
    since the accumulator is not emptied, a completion frame that arrives
    twice makes the same file be downloaded twice. *)
Theorem repeated_completion (clock : nat → Z) (name fileType : string)
    (size : Z) (chunks : list (list Byte.byte)) (r : Refs) :
  downloads
    (receive clock 0
       (FileInfo name size fileType
          :: (Chunk <$> chunks) ++ [FileComplete] ++ [FileComplete]) r).2
  = [(name, fileType, concat chunks); (name, fileType, concat chunks)].
Proof.
  rewrite app_assoc, app_comm_cons, receive_app. cbn zeta. cbn [snd].
  destruct (receive_transfer clock 0 name size fileType chunks r)
    as [Hsaved Hdata].
  set (first := receive clock 0
                  (FileInfo name size fileType
                     :: (Chunk <$> chunks) ++ [FileComplete]) r) in *.
  clearbody first.
  rewrite downloads_app, Hsaved.
  unfold transferData in Hdata. injection Hdata as Hc _ _ Hn Ht.
  cbn [receive handleDataChannelMessage fst snd]. unfold saveReceivedFile.
  rewrite Hc, Hn, Ht. done.
Qed.

(** A transfer is received whole whatever came before it on the channel:
    its [file-info] frame supersedes any earlier state, be it a finished
    transfer, an abandoned one or stray frames. In particular two files
    sent one after the other over one channel are both delivered intact,
    in order. *)
Theorem transfer_after_anything (before : list Frame)
    (content : list Byte.byte) (name type : string)
    (t0 : Z) (senderClock receiverClock : nat → Z) (s r : Refs) :
  dataChannelRef s = Some Open →
  let frames := sent (sendFile t0 senderClock (fileOf name type content) s).2 in
  downloads (receive receiverClock 0 (before ++ frames) r).2
  = downloads (receive receiverClock 0 before r).2 ++ [(name, type, content)]
  ∧ ∀ content' name' type' t0' clock',
      downloads
        (receive receiverClock 0
           (sent (sendFile t0' clock' (fileOf name' type' content') s).2
            ++ frames) r).2
      = [(name', type', content'); (name, type, content)].
Proof.
  intros Hopen frames.
  assert (Hafter : ∀ before',
    downloads (receive receiverClock 0 (before' ++ frames) r).2
    = downloads (receive receiverClock 0 before' r).2
      ++ [(name, type, content)]).
  { intros before'. subst frames.
    destruct (sendFile_frames t0 senderClock (fileOf name type content) s Hopen)
      as (chunks & -> & Hcat & _).
    rewrite file_bytes_fileOf in Hcat.
    rewrite receive_app. cbn zeta. cbn [snd]. rewrite downloads_app.
    f_equal.
    destruct (receive_transfer receiverClock (0 + length before')
                (file_name (fileOf name type content))
                (Z.of_N (file_size (fileOf name type content)))
                (file_type (fileOf name type content)) chunks
                (receive receiverClock 0 before' r).1) as [-> _].
    by rewrite Hcat. }
  split; [apply Hafter|].
  intros content' name' type' t0' clock'. rewrite Hafter. f_equal.
  destruct (sendFile_frames t0' clock' (fileOf name' type' content') s Hopen)
    as (chunks' & -> & Hcat' & _).
  rewrite file_bytes_fileOf in Hcat'.
  destruct (receive_transfer receiverClock 0
              (file_name (fileOf name' type' content'))
              (Z.of_N (file_size (fileOf name' type' content')))
              (file_type (fileOf name' type' content')) chunks' r) as [-> _].
  by rewrite Hcat'.
Qed.

Lemma transfer_after_anything_witness :
  downloads
    (receive (λ k, Z.of_nat k + 5)%Z 0
       ([Chunk [Byte.xff]; Malformed]
        ++ sent (sendFile 1 (λ k, Z.of_nat k + 2)%Z
                          (fileOf "a.bin" "" [Byte.x01; Byte.x02])
                          (mkRefs true (Some Open) [] 0 0 "" "" 0)).2)
       initialRefs).2
  = downloads
      (receive (λ k, Z.of_nat k + 5)%Z 0 [Chunk [Byte.xff]; Malformed]
               initialRefs).2
    ++ [("a.bin", "", [Byte.x01; Byte.x02])].
Proof.
  apply (transfer_after_anything [Chunk [Byte.xff]; Malformed]
           [Byte.x01; Byte.x02] "a.bin" "" 1 (λ k, Z.of_nat k + 2)%Z
           (λ k, Z.of_nat k + 5)%Z
           (mkRefs true (Some Open) [] 0 0 "" "" 0) initialRefs).
  reflexivity.
Defined.

(** ** Frames the protocol does not know *)

Lemma handle_same_data now1 now2 frame r1 r2 :
  transferData r1 = transferData r2 →
  transferData (handleDataChannelMessage now1 frame r1).1
  = transferData (handleDataChannelMessage now2 frame r2).1
  ∧ downloads (handleDataChannelMessage now1 frame r1).2
    = downloads (handleDataChannelMessage now2 frame r2).2.
Proof.
  unfold transferData. intros [= Hc Hs Ht Hn Hy].
  destruct frame; cbn [handleDataChannelMessage fst snd fileChunksRef
    receivedSizeRef totalSizeRef fileNameRef fileTypeRef];
    rewrite ?Hc, ?Hs, ?Ht, ?Hn, ?Hy; try done.
  - unfold saveReceivedFile. by rewrite Hc, Hn, Hy.
  - change (downloads (SetProgress ?p :: ?l)) with (downloads l).
    by rewrite !downloads_estimate.
Qed.

Lemma handle_ignored now frame r :
  ignoredText frame = true →
  (handleDataChannelMessage now frame r).1 = r
  ∧ downloads (handleDataChannelMessage now frame r).2 = []
  ∧ progressReports (handleDataChannelMessage now frame r).2 = [].
Proof. by destruct frame. Qed.

Lemma receive_same_data clock1 clock2 frames : ∀ k1 k2 r1 r2,
  transferData r1 = transferData r2 →
  transferData (receive clock1 k1 frames r1).1
  = transferData
      (receive clock2 k2
         (filter (λ frame, ignoredText frame = false) frames) r2).1
  ∧ downloads (receive clock1 k1 frames r1).2
    = downloads
        (receive clock2 k2
           (filter (λ frame, ignoredText frame = false) frames) r2).2.
Proof.
  induction frames as [|frame frames IH]; intros k1 k2 r1 r2 Hsame; [done|].
  rewrite filter_cons. cbn [receive fst snd]. rewrite downloads_app.
  destruct (decide (ignoredText frame = false)) as [Hkept|Hjunk].
  - cbn [receive fst snd]. rewrite downloads_app.
    destruct (handle_same_data (clock1 k1) (clock2 k2) frame r1 r2 Hsame)
      as [Hdata ->].
    by destruct (IH (S k1) (S k2) _ _ Hdata) as [-> ->].
  - apply not_false_is_true in Hjunk.
    destruct (handle_ignored (clock1 k1) frame r1 Hjunk) as (-> & -> & _).
    by destruct (IH (S k1) k2 r1 r2 Hsame) as [-> ->].
Qed.

(** Text frames that are neither [file-info] nor [file-complete], and
    text that does not parse, change nothing the receiver holds of a
    transfer: the chunks, sizes, name and type it ends with, and the files
    it hands to the user, are those of the stream without these frames.
    Neither depends on the clock. *)
Theorem unknown_text_is_ignored (clock clock' : nat → Z)
    (frames : list Frame) (r : Refs) :
  let kept := filter (λ frame, ignoredText frame = false) frames in
  transferData (receive clock 0 frames r).1
  = transferData (receive clock' 0 kept r).1
  ∧ downloads (receive clock 0 frames r).2
    = downloads (receive clock' 0 kept r).2.
Proof.
  intros kept. subst kept.
  destruct (receive_same_data clock clock' frames 0 0 r r eq_refl)
    as [Hdata Hfiles].
  by split.
Qed.

(** ** A binary frame with no transfer announced *)

Lemma percent_of_nothing (moved : Z) :
  (0 < moved)%Z → percent moved 0 = Infinity.
Proof.
  intros Hmoved. unfold percent, ofZ, div.
  rewrite (isZero_true (inject_Z 0)) by done.
  rewrite isZero_false by (by apply Qpos_nonzero, inject_Z_pos).
  unfold isNeg.
  replace (Qle_bool 0 (inject_Z moved)) with true; [done|].
  symmetry. apply Qle_bool_iff, Qlt_le_weak. by apply inject_Z_pos.
Qed.

(** A binary frame that arrives when no [file-info] frame has announced a
    transfer (the total size and the start time are still zero, as on a
    fresh or reset hook) is not rejected: it is accumulated and counted,
    the progress is set to [Infinity] (bytes over a total of zero), and no
    ETA is set. The next [file-info] frame discards it. *)
Theorem chunk_without_file_info (now : Z) (data : list Byte.byte) (r : Refs) :
  totalSizeRef r = 0%Z → startTimeRef r = 0%Z →
  (0 <= receivedSizeRef r)%Z → data ≠ [] →
  let step := handleDataChannelMessage now (Chunk data) r in
  fileChunksRef step.1 = fileChunksRef r ++ [data]
  ∧ receivedSizeRef step.1 = (receivedSizeRef r + Z.of_nat (length data))%Z
  ∧ step.2 = [SetProgress Infinity]
  ∧ ∀ now' name size fileType,
      transferData
        (handleDataChannelMessage now' (FileInfo name size fileType) step.1).1
      = ([], 0%Z, size, name, fileType).
Proof.
  intros Htotal Hstart Hreceived Hdata step. subst step.
  cbn [handleDataChannelMessage fst snd fileChunksRef receivedSizeRef].
  rewrite Htotal, Hstart. split_and!; try done.
  rewrite percent_of_nothing; [done|].
  destruct data; [done|]. simpl. lia.
Qed.

Lemma chunk_without_file_info_witness :
  (handleDataChannelMessage 7 (Chunk [Byte.x2a]) initialRefs).2
  = [SetProgress Infinity].
Proof.
  apply (chunk_without_file_info 7 [Byte.x2a] initialRefs);
    [reflexivity | reflexivity | done | discriminate].
Defined.

(** ** Progress of a transfer *)

Lemma percent_zero (total : Z) : (0 < total)%Z → percent 0 total = Num 0.
Proof.
  intros Htotal. rewrite percent_Num by done. reflexivity.
Qed.

Lemma percent_in_range (moved total : Z) :
  (0 < total)%Z → (0 <= moved <= total)%Z → inRange (percent moved total).
Proof.
  intros Htotal [Hlow Hhigh]. split.
  - pose proof (percent_monotone 0 moved total Htotal Hlow) as Hle.
    by rewrite percent_zero in Hle.
  - pose proof (percent_monotone moved total total Htotal Hhigh) as Hle.
    by rewrite percent_full in Hle.
Qed.

Lemma sender_in_range clock file startTime k offset :
  (0 < file_size file)%N → (offset <= file_size file)%N →
  Forall inRange (progressReports (readSlice clock file startTime k offset)).
Proof.
  funelim (readSlice clock file startTime k offset); intros Hsize Hle;
    rewrite progressReports_app, progressReports_onload;
    pose proof (nextOffset_min file offset Hle) as Hnext.
  - apply Forall_app. split.
    + apply Forall_singleton, percent_in_range; lia.
    + match goal with
      | IH : _ → _ → Forall inRange _ |- _ => apply IH; [done|lia]
      end.
  - apply Forall_app. split.
    + apply Forall_singleton, percent_in_range; lia.
    + by apply Forall_nil.
Qed.

Lemma receiver_in_range clock (chunks : list (list Byte.byte)) : ∀ k r,
  (0 < totalSizeRef r)%Z → (0 <= receivedSizeRef r)%Z →
  (receivedSizeRef r + byteLength chunks <= totalSizeRef r)%Z →
  Forall inRange
    (progressReports
       (receive clock k ((Chunk <$> chunks) ++ [FileComplete]) r).2).
Proof.
  induction chunks as [|c chunks IH]; intros k r Htotal Hlow Hhigh.
  - by apply Forall_nil.
  - cbn [fmap list_fmap app receive snd]. rewrite progressReports_app.
    assert (Hc : (0 <= byteLength chunks)%Z).
    { rewrite byteLength_concat. lia. }
    cbn [byteLength foldr] in Hhigh. fold (byteLength chunks) in Hhigh.
    apply Forall_app. split.
    + cbn [handleDataChannelMessage snd].
      change (progressReports (SetProgress ?p :: ?l))
        with (p :: progressReports l).
      rewrite progressReports_estimate.
      apply Forall_singleton, percent_in_range; lia.
    + apply IH; cbn [handleDataChannelMessage fst receivedSizeRef totalSizeRef];
        lia.
Qed.

(** While a file that is not empty is transferred, the progress shown on
    each side is a percentage between 0 and 100 that never decreases, and
    it is exactly 100 when the completion frame is sent and when it is
    received. *)
Theorem progress_over_transfer (t0 : Z) (senderClock receiverClock : nat → Z)
    (file : File) (s r : Refs) :
  dataChannelRef s = Some Open →
  (0 < file_size file)%N →
  let sending := (sendFile t0 senderClock file s).2 in
  let receiving := (receive receiverClock 0 (sent sending) r).2 in
  (Forall inRange (progressReports sending)
   ∧ nondecreasing (progressReports sending)
   ∧ last (progressReports sending) = Some (Num 100))
  ∧ (Forall inRange (progressReports receiving)
     ∧ nondecreasing (progressReports receiving)
     ∧ last (progressReports receiving) = Some (Num 100)).
Proof.
  intros Hopen Hsize sending receiving.
  destruct (progress_of_nonempty_file t0 senderClock receiverClock file s r
              Hopen Hsize) as (Hs1 & Hs2 & Hr1 & Hr2).
  fold sending in Hs1, Hs2. fold sending receiving in Hr1, Hr2.
  split_and!; try done.
  - subst sending. rewrite (sendFile_open _ _ _ _ Hopen).
    change (progressReports (Send ?f :: ?l)) with (progressReports l).
    apply sender_in_range; [done|lia].
  - subst receiving sending.
    destruct (sendFile_frames t0 senderClock file s Hopen)
      as (chunks & -> & Hcat & _).
    cbn [receive snd]. rewrite progressReports_app.
    change (progressReports (handleDataChannelMessage _ (FileInfo _ _ _) _).2)
      with (@nil num). cbn [app].
    apply receiver_in_range;
      cbn [handleDataChannelMessage fst receivedSizeRef totalSizeRef];
      [lia|lia|].
    rewrite byteLength_concat, Hcat. unfold file_bytes.
    rewrite length_fmap, length_offsets. lia.
Qed.

Lemma progress_over_transfer_witness :
  last (progressReports
          (sendFile 1 (λ k, Z.of_nat k + 2)%Z
                    (fileOf "a.bin" "" [Byte.x01; Byte.x02])
                    (mkRefs true (Some Open) [] 0 0 "" "" 0)).2)
  = Some (Num 100).
Proof.
  apply (progress_over_transfer 1 (λ k, Z.of_nat k + 2)%Z
           (λ k, Z.of_nat k + 5)%Z (fileOf "a.bin" "" [Byte.x01; Byte.x02])
           (mkRefs true (Some Open) [] 0 0 "" "" 0) initialRefs);
    reflexivity.
Defined.

(** ** When the page shows a number of seconds *)

(** Once bytes have moved and time has elapsed, the page shows a whole
    number of seconds, at least 1, exactly as long as bytes remain to be
    moved; when none remain (at the last chunk, or past the announced
    size) the estimate is not positive and the page shows
    "Calculating...". *)
Theorem eta_shown_while_bytes_remain (startTime now moved total : Z) :
  (0 < startTime)%Z → (0 < moved)%Z → (0 < now - startTime)%Z →
  ∃ seconds,
    estimate startTime now moved total = [SetEstimatedTime (ofZ seconds)]
    ∧ ((moved < total)%Z →
       (1 <= seconds)%Z
       ∧ etaText (ofZ seconds) = SecondsRemaining (ofZ seconds))
    ∧ ((total <= moved)%Z →
       (seconds <= 0)%Z ∧ etaText (ofZ seconds) = Calculating).
Proof.
  intros Hstart Hmoved Helapsed.
  rewrite (estimate_value _ _ _ _ Hstart Hmoved Helapsed).
  destruct (eta64_sign (now - startTime) moved total Helapsed Hmoved)
    as [Hrest Hdone].
  eexists. split; [done|]. split.
  - intros Hleft. specialize (Hrest Hleft). split; [done|].
    apply etaText_positive. lia.
  - intros Hnone. specialize (Hdone Hnone). split; [done|].
    by apply etaText_not_positive.
Qed.

Lemma eta_shown_while_bytes_remain_witness :
  ∃ seconds,
    estimate 1000 3000 1 4 = [SetEstimatedTime (ofZ seconds)]
    ∧ ((1 < 4)%Z →
       (1 <= seconds)%Z
       ∧ etaText (ofZ seconds) = SecondsRemaining (ofZ seconds))
    ∧ ((4 <= 1)%Z → (seconds <= 0)%Z ∧ etaText (ofZ seconds) = Calculating).
Proof.
  apply (eta_shown_while_bytes_remain 1000 3000 1 4); reflexivity.
Defined.

(** ** Connection state changes *)

Lemma renders_isConnected effects : ∀ ui,
  (∀ e, e ∈ effects → ∀ b, e ≠ SetIsConnected b) →
  isConnected (renders ui effects) = isConnected ui.
Proof.
  induction effects as [|e effects IH]; intros ui Hno; [done|].
  cbn [renders foldl]. fold (renders (render ui e) effects).
  rewrite IH by (intros e' He'; apply Hno; by right).
  destruct e; try done. exfalso.
  eapply (Hno (SetIsConnected _)); [by left|done].
Qed.

Lemma estimate_only_sets_eta e startTime now moved total :
  e ∈ estimate startTime now moved total → ∃ t, e = SetEstimatedTime t.
Proof.
  unfold estimate. destruct (0 <? startTime)%Z.
  - intros ->%list_elem_of_singleton. by eexists.
  - by intros ?%elem_of_nil.
Qed.

Lemma readSlice_leaves_connection_flag clock file startTime k offset :
  ∀ b, SetIsConnected b ∉ readSlice clock file startTime k offset.
Proof.
  funelim (readSlice clock file startTime k offset); intros b;
    unfold onload; rewrite !elem_of_app, !elem_of_cons.
  - intros [[?|[?|Hin]]|Hin]; try discriminate.
    + by apply estimate_only_sets_eta in Hin as [? ?].
    + match goal with IH : ∀ b : bool, _ |- _ => by apply (IH _ Hin) end.
  - intros [[?|[?|Hin]]|Hin]; try discriminate.
    + by apply estimate_only_sets_eta in Hin as [? ?].
    + repeat (destruct Hin as [?|Hin]; [discriminate|]).
      by apply elem_of_nil in Hin.
Qed.

Lemma sendFile_leaves_connection_flag t0 clock file r b :
  SetIsConnected b ∉ (sendFile t0 clock file r).2.
Proof.
  unfold sendFile.
  destruct (dataChannelRef r) as [[]|];
    try (by intros ?%list_elem_of_singleton).
  cbn [snd]. intros [?|Hin]%elem_of_cons; [discriminate|].
  by apply readSlice_leaves_connection_flag in Hin.
Qed.

(** What the hook does when the state of the peer connection changes.
    Connected, on the sending side with a file selected: the transfer
    starts at once, and over an open channel the peer receives the file;
    when the data channel is not open yet at that moment, nothing is sent
    (only the "Data channel is not open" toast follows). The receiving
    side, or a side with no file, sends nothing. Either way the hook shows
    itself connected. Disconnected or failed: the hook shows itself not
    connected and keeps everything else, the received chunks and the
    progress shown included. Any other state: nothing. *)
Theorem connection_state_changes (isSender : bool) (selected : option File)
    (t0 : Z) (clock : nat → Z) (r : Refs) (ui : UI) :
  let on state := onconnectionstatechange state isSender selected t0 clock r in
  isConnected (renders ui (on StateConnected).2) = true
  ∧ (∀ name type content receiverClock r',
       isSender = true → selected = Some (fileOf name type content) →
       dataChannelRef r = Some Open →
       downloads (receive receiverClock 0 (sent (on StateConnected).2) r').2
       = [(name, type, content)])
  ∧ (isSender = false ∨ selected = None ∨ dataChannelRef r ≠ Some Open →
     (on StateConnected).1 = r ∧ sent (on StateConnected).2 = [])
  ∧ (∀ state, state = StateDisconnected ∨ state = StateFailed →
       (on state).1 = r
       ∧ sent (on state).2 = []
       ∧ isConnected (renders ui (on state).2) = false
       ∧ progress (renders ui (on state).2) = progress ui)
  ∧ (∀ state, state = StateNew ∨ state = StateConnecting ∨ state = StateClosed →
       on state = (r, [])).
Proof.
  intros on. subst on. split_and!.
  - cbn [onconnectionstatechange snd app renders foldl].
    fold (renders (render (render ui (SetIsConnected true))
                     (SetStatus "Connected! Ready for file transfer."))).
    rewrite renders_isConnected; [done|].
    intros e He b ->.
    destruct selected as [file|]; [|by apply elem_of_nil in He].
    destruct isSender; [|by apply elem_of_nil in He].
    by apply sendFile_leaves_connection_flag in He.
  - intros name type content receiverClock r' -> -> Hopen.
    cbn [onconnectionstatechange snd].
    change (sent ([SetIsConnected ?b; SetStatus ?s] ++ ?l)) with (sent l).
    destruct (sendFile_frames t0 clock (fileOf name type content) r Hopen)
      as (chunks & -> & Hcat & _).
    rewrite file_bytes_fileOf in Hcat.
    destruct (receive_transfer receiverClock 0
                (file_name (fileOf name type content))
                (Z.of_N (file_size (fileOf name type content)))
                (file_type (fileOf name type content)) chunks r') as [-> _].
    by rewrite Hcat.
  - intros Hidle. cbn [onconnectionstatechange fst snd].
    change (sent ([SetIsConnected ?b; SetStatus ?s] ++ ?l)) with (sent l).
    destruct selected as [file|]; [|done].
    destruct isSender; [|done].
    destruct Hidle as [?|[?|Hclosed]]; try done.
    unfold sendFile. by destruct (dataChannelRef r) as [[]|].
  - by intros state [-> | ->].
  - by intros state [-> | [-> | ->]].
Qed.

Lemma connection_state_changes_witness :
  downloads
    (receive (λ k, Z.of_nat k + 5)%Z 0
       (sent (onconnectionstatechange StateConnected true
                (Some (fileOf "a.bin" "" [Byte.x01; Byte.x02]))
                1 (λ k, Z.of_nat k + 2)%Z
                (mkRefs true (Some Open) [] 0 0 "" "" 0)).2)
       initialRefs).2
  = [("a.bin", "", [Byte.x01; Byte.x02])].
Proof.
  apply (proj1 (proj2 (connection_state_changes true
                  (Some (fileOf "a.bin" "" [Byte.x01; Byte.x02]))
                  1 (λ k, Z.of_nat k + 2)%Z
                  (mkRefs true (Some Open) [] 0 0 "" "" 0) initialUI)));
    reflexivity.
Defined.

(** ** Selecting a file, and resetting *)

(** A file of at most 1 GiB (the bound itself included) is accepted: it
    becomes the selected file, and the share code, progress, ETA, status
    and connection flag shown are cleared. The selection empties the
    receive accumulator and zeroes the sizes, but keeps the announced name
    and type and does not close or forget the channel: when it happens
    while a file is being received, the chunks received so far are lost,
    and the completion frame hands the user a file under the announced
    name that holds only the chunks received after the selection. *)
Theorem selection_during_reception (file : File) (others : list File)
    (clock : nat → Z) (k : nat) (later : list (list Byte.byte))
    (r : Refs) (ui : UI) :
  (file_size file <= 1024 * 1024 * 1024)%N →
  let selection := handleFileSelect (file :: others) r in
  let rest :=
    receive clock k ((Chunk <$> later) ++ [FileComplete]) selection.1 in
  renders ui selection.2 = mkUI (Some file) "" (ofZ 0) (ofZ 0) "" false
  ∧ transferData selection.1
    = ([], 0%Z, 0%Z, fileNameRef r, fileTypeRef r)
  ∧ dataChannelRef selection.1 = dataChannelRef r
  ∧ peerConnectionRef selection.1 = peerConnectionRef r
  ∧ sent selection.2 = []
  ∧ downloads rest.2 = [(fileNameRef r, fileTypeRef r, concat later)].
Proof.
  intros Hfits selection rest. subst rest selection.
  unfold handleFileSelect.
  replace (MAX_FILE_SIZE <? file_size file)%N with false
    by (symmetry; apply N.ltb_ge; exact Hfits).
  cbn [fst snd]. split_and!; try done.
  set (r1 := mkRefs _ _ _ _ _ _ _ _).
  destruct (receive_chunks clock later k r1) as (_ & _ & _ & Hsaved).
  by rewrite Hsaved.
Qed.

Lemma selection_during_reception_witness :
  downloads
    (receive (λ k, Z.of_nat k + 5)%Z 2 ((Chunk <$> [[Byte.x03]]) ++ [FileComplete])
       (handleFileSelect
          [mkFile "big.iso" 1073741824 "" (λ _, Byte.x00)]
          (mkRefs true (Some Open) [[Byte.x01]; [Byte.x02]] 2 3
                  "a.bin" "" 1000)).1).2
  = [("a.bin", "", concat [[Byte.x03]])].
Proof.
  apply (selection_during_reception
           (mkFile "big.iso" 1073741824 "" (λ _, Byte.x00)) []
           (λ k, Z.of_nat k + 5)%Z 2 [[Byte.x03]]
           (mkRefs true (Some Open) [[Byte.x01]; [Byte.x02]] 2 3
                   "a.bin" "" 1000) initialUI).
  reflexivity.
Defined.


(** ** From the two hooks to the server *)

(** The rendezvous. [generateCode] does nothing without a selected file,
    and [connectWithCode] nothing with an empty code. Otherwise each joins
    the room of its code on the signaling socket, the one as sender, the
    other as receiver, and stores a new peer connection (the sender a data
    channel too, still connecting). When the sender's join reaches the
    server before the receiver's, on a code with no room yet, the server
    pairs the two and sends [receiver-joined] to the sender, and to nobody
    else. *)
Theorem rendezvous (code : string) (file : File) (A B : Relay.ConnId)
    (senderRefs receiverRefs : Refs) (rooms : gmap string Relay.Room) :
  code ≠ "" → A ≠ "" → B ≠ "" →
  rooms !! code = None →
  let generated := generateCode code (Some file) senderRefs in
  let connecting := connectWithCode code receiverRefs in
  let server :=
    Relay.run (socketEvents A generated.2 ++ socketEvents B connecting.2)
              rooms in
  server.1 !! code = Some (Relay.mkRoom (Some A) (Some B))
  ∧ server.2 = [Relay.mkEmit A Relay.ReceiverJoined]
  ∧ dataChannelRef generated.1 = Some Connecting
  ∧ peerConnectionRef generated.1 = true
  ∧ peerConnectionRef connecting.1 = true
  ∧ dataChannelRef connecting.1 = dataChannelRef receiverRefs
  ∧ generateCode code None senderRefs = (senderRefs, [])
  ∧ connectWithCode "" receiverRefs = (receiverRefs, []).
Proof.
  intros Hcode HA HB Hfresh generated connecting server.
  subst server generated connecting. unfold connectWithCode.
  replace (String.eqb code "") with false
    by (symmetry; by apply String.eqb_neq).
  cbn [generateCode initWebRTC fst snd socketEvents omap list_omap app
       Relay.run Relay.handle].
  pose proof (RelayFacts.joinRoom_fresh A code true rooms Hfresh) as Hj.
  assert (Hout : (Relay.joinRoom A code true rooms).2 = []).
  { unfold Relay.joinRoom.
    rewrite bool_decide_eq_false_2 by (rewrite Hfresh; by intros [? ?]).
    by rewrite lookup_insert_eq. }
  destruct (Relay.joinRoom A code true rooms) as [rooms1 out1].
  cbn [fst snd] in Hj, Hout. subst rooms1 out1.
  rewrite (RelayFacts.joinRoom_present B code false _
             (Relay.mkRoom (Some A) None)) by apply lookup_insert_eq.
  cbn [Relay.sender Relay.receiver fst snd app].
  rewrite RelayFacts.emitIfTruthy_Some by done.
  rewrite lookup_insert_eq. by split_and!.
Qed.

Lemma rendezvous_witness :
  (Relay.run
     (socketEvents "A1"
        (generateCode "ab12cd34" (Some (fileOf "a.bin" "" [Byte.x01]))
                      initialRefs).2
      ++ socketEvents "B1" (connectWithCode "ab12cd34" initialRefs).2)
     ∅).2
  = [Relay.mkEmit "A1" Relay.ReceiverJoined].
Proof.
  apply (rendezvous "ab12cd34" (fileOf "a.bin" "" [Byte.x01]) "A1" "B1"
           initialRefs initialRefs ∅);
    [discriminate | discriminate | discriminate | reflexivity].
Defined.

End TransferMore.
